(** * Overlay node engine of p2p.go: peer table, introduction handshake,
      membership loop, MAC generation and start-up.

    Shallow embedding of [src/p2p.go].  Go strings are byte strings and are
    modelled by [string]; [[]byte], [net.IP] and [net.HardwareAddr] are lists
    of [byte] whose [nil] value is the empty list; a pointer to [net.UDPAddr] that may be
    [nil] is an [option].  A slice that is updated through an index is a list
    read with [!!] and written with [alter].  Calls that leave the process
    (log lines, UDP sends, address resolution, TAP writes) are recorded, in
    program order, in a list of [Effect]s returned next to the new state. *)

From Stdlib.Strings Require Import String Ascii Byte.
From Stdlib Require Import NArith ZArith Lia Bool.
From stdpp Require Import base list.

Local Open Scope string_scope.
Local Open Scope list_scope.

(** ** Bytes and hexadecimal text *)

(** Conversion [byte(n)] of a Go integer: the low eight bits. *)
Definition byte_of_int (n : N) : byte :=
  match Byte.of_N (n mod 256) with
  | Some b => b
  | None => x00
  end.

(** [a | b] on [uint8]. *)
Definition byte_or (a b : byte) : byte :=
  byte_of_int (N.lor (Byte.to_N a) (Byte.to_N b)).

(** [const hexDigit = "0123456789abcdef"], indexed by a nibble. *)
Definition hexDigit (n : N) : ascii :=
  match String.get (N.to_nat n) "0123456789abcdef" with
  | Some c => c
  | None => "0"%char
  end.

(** The two characters [hexDigit[b>>4]], [hexDigit[b&0xF]]; this is also what
    the verb [%02x] of [fmt.Sprintf] prints for a byte. *)
Definition hex2 (b : byte) : string :=
  String (hexDigit (N.shiftr (Byte.to_N b) 4))
    (String (hexDigit (N.land (Byte.to_N b) 15)) "").

Definition HardwareAddr := list byte.
Definition IP := list byte.

(** [func (a HardwareAddr) String() string] of package [net]. *)
Fixpoint HardwareAddr_String_loop (i : nat) (a : list byte) : string :=
  match a with
  | [] => ""
  | b :: rest =>
      ((if (0 <? i)%nat then ":" else "")
         ++ hex2 b ++ HardwareAddr_String_loop (S i) rest)%string
  end.

Definition HardwareAddr_String (a : HardwareAddr) : string :=
  if (length a =? 0)%nat then "" else HardwareAddr_String_loop 0 a.

(** ** [net.ParseMAC] and its helpers [xtoi], [xtoi2] *)

Definition big : N := 0xFFFFFF.

(** Value of one hexadecimal digit, as the three range tests of [xtoi]. *)
Definition hexval (c : ascii) : option N :=
  let k := N_of_ascii c in
  if (48 <=? k)%N && (k <=? 57)%N then Some (k - 48)%N
  else if (97 <=? k)%N && (k <=? 102)%N then Some (k - 97 + 10)%N
  else if (65 <=? k)%N && (k <=? 70)%N then Some (k - 65 + 10)%N
  else None.

(** The loop of [xtoi]: [inl (n, i)] when it ends or breaks, [inr i] when it
    returns early because the number got too big. *)
Fixpoint xtoi_loop (s : string) (n : N) (i : nat) : (N * nat) + nat :=
  match s with
  | EmptyString => inl (n, i)
  | String c rest =>
      match hexval c with
      | Some d =>
          let n' := (n * 16 + d)%N in
          if (big <=? n')%N then inr i else xtoi_loop rest n' (S i)
      | None => inl (n, i)
      end
  end.

(** [xtoi(s)] returns the number, the characters consumed and success. *)
Definition xtoi (s : string) : N * nat * bool :=
  match xtoi_loop s 0%N 0%nat with
  | inr i => (0%N, i, false)
  | inl (n, i) => if decide (i = 0)%nat then (0%N, i, false) else (n, i, true)
  end.

(** [s[x:]] and [s[x:y]] for indices within the string. *)
Fixpoint str_from (x : nat) (s : string) : string :=
  match x, s with
  | O, _ => s
  | S x', String _ rest => str_from x' rest
  | S _, EmptyString => EmptyString
  end.

Fixpoint str_upto (y : nat) (s : string) : string :=
  match y, s with
  | O, _ => EmptyString
  | S y', String c rest => String c (str_upto y' rest)
  | S _, EmptyString => EmptyString
  end.

Definition ascii_eqb_opt (o : option ascii) (e : ascii) : bool :=
  match o with
  | Some c => Ascii.eqb c e
  | None => false
  end.

(** [xtoi2(s, e)]: the next two hex digits of [s] as a byte; when [s] is
    longer than two bytes the third one has to be [e]. *)
Definition xtoi2 (s : string) (e : ascii) : byte * bool :=
  if (2 <? String.length s)%nat && negb (ascii_eqb_opt (String.get 2 s) e)
  then (x00, false)
  else
    let '(n, ei, ok) := xtoi (str_upto 2 s) in
    (byte_of_int n, ok && Nat.eqb ei 2).

(** The loop of the colon or hyphen form:
    [for x, i := 0, 0; i < n; i++ { hw[i] = xtoi2(s[x:], s[2]); x += 3 }]. *)
Fixpoint ParseMAC_sep (cnt : nat) (s : string) (x : nat) (e : ascii)
  : option (list byte) :=
  match cnt with
  | O => Some []
  | S cnt' =>
      match xtoi2 (str_from x s) e with
      | (b, true) =>
          match ParseMAC_sep cnt' s (x + 3) e with
          | Some hw => Some (b :: hw)
          | None => None
          end
      | (_, false) => None
      end
  end.

(** The loop of the dotted form, two bytes per group of four digits. *)
Fixpoint ParseMAC_dot (cnt : nat) (s : string) (x : nat) (e : ascii)
  : option (list byte) :=
  match cnt with
  | O => Some []
  | S cnt' =>
      match xtoi2 (str_upto 2 (str_from x s)) "000"%char with
      | (b1, true) =>
          match xtoi2 (str_from (x + 2) s) e with
          | (b2, true) =>
              match ParseMAC_dot cnt' s (x + 5) e with
              | Some hw => Some (b1 :: b2 :: hw)
              | None => None
              end
          | (_, false) => None
          end
      | (_, false) => None
      end
  end.

Definition mac_len_ok (n : nat) : bool :=
  Nat.eqb n 6 || Nat.eqb n 8 || Nat.eqb n 20.

(** [net.ParseMAC]: [None] stands for the returned error. *)
Definition ParseMAC (s : string) : option HardwareAddr :=
  let len := String.length s in
  if (len <? 14)%nat then None
  else if ascii_eqb_opt (String.get 2 s) ":" || ascii_eqb_opt (String.get 2 s) "-"
  then
    if negb (Nat.eqb ((len + 1) mod 3) 0) then None
    else
      let n := ((len + 1) / 3)%nat in
      if negb (mac_len_ok n) then None
      else
        match String.get 2 s with
        | Some e => ParseMAC_sep n s 0 e
        | None => None
        end
  else if ascii_eqb_opt (String.get 4 s) "."
  then
    if negb (Nat.eqb ((len + 1) mod 5) 0) then None
    else
      let n := (2 * (len + 1) / 5)%nat in
      if negb (mac_len_ok n) then None
      else
        match String.get 4 s with
        | Some e => ParseMAC_dot (n / 2) s 0 e
        | None => None
        end
  else None.

(** ** [GenerateMAC] *)

(** [buf[i]] for an index inside the buffer. *)
Definition at_index (buf : list byte) (i : nat) : byte :=
  default x00 (buf !! i).

(** The buffer after [buf[0] |= 2]. *)
Definition GenerateMAC_buf (buf : list byte) : list byte :=
  alter (fun b => byte_or b x02) 0%nat buf.

(** [GenerateMAC]; the argument is the outcome of [rand.Read] on the six-byte
    buffer: [None] for an error, otherwise the bytes it stored. *)
Definition GenerateMAC (rnd : option (list byte)) : string * HardwareAddr :=
  match rnd with
  | None => ("", [])
  | Some buf0 =>
      let buf := GenerateMAC_buf buf0 in
      let mac :=
        ("06:" ++ hex2 (at_index buf 1) ++ ":" ++ hex2 (at_index buf 2) ++ ":"
           ++ hex2 (at_index buf 3) ++ ":" ++ hex2 (at_index buf 4) ++ ":"
           ++ hex2 (at_index buf 5))%string in
      match ParseMAC mac with
      | Some hw => (mac, hw)
      | None => ("", [])
      end
  end.

(** ** [strings.Split(s, ",")] *)

(** One part per separator plus one; a string without separator is returned
    as the only part. *)
Fixpoint Split (sep : ascii) (s : string) : list string :=
  match s with
  | EmptyString => [EmptyString]
  | String c rest =>
      if Ascii.eqb c sep then EmptyString :: Split sep rest
      else
        match Split sep rest with
        | part :: parts => String c part :: parts
        | [] => [String c EmptyString]
        end
  end.

(** ** What the engine consumes from its collaborators

    Package [net] ([UDPAddr], [ResolveUDPAddr], [ParseIP]) and the packages
    [udpcs] and [commons] of the overlay (message type, codec, constructor of
    introduction messages, the two message type constants). *)
Class External := {
  UDPAddr : Type;
  (** method [String] of [net.UDPAddr] *)
  UDPAddr_String : UDPAddr -> string;
  (** [net.ResolveUDPAddr("udp", s)]; [None] is the error *)
  ResolveUDPAddr : string -> option UDPAddr;
  (** [net.ParseIP]; the empty list is [nil] *)
  ParseIP : string -> IP;
  P2PMessage : Type;
  (** [msg.Header.Type] *)
  Header_Type : P2PMessage -> N;
  (** [msg.Data] *)
  Data : P2PMessage -> list byte;
  (** [udpcs.P2PMessageFromBytes]; [None] is the error *)
  P2PMessageFromBytes : list byte -> option P2PMessage;
  (** [udpcs.CreateIntroP2PMessage] *)
  CreateIntroP2PMessage : string -> Z -> P2PMessage;
  MT_INTRO : N;
  MT_NENC : N
}.

(** Handle of an open TAP device. *)
Inductive tuntap_Interface : Type :=
| TapHandle (name : string).

(** A call either returns or ends the process ([log.Fatalf], [os.Exit]). *)
Inductive Outcome (A : Type) : Type :=
| Returned (a : A)
| Exited (code : Z).
Arguments Returned {A} a.
Arguments Exited {A} code.

Section Engine.
Context `{External}.

(** ** Data model *)

Record NetworkPeer := mkPeer {
  Unknown : bool;
  Handshaked : bool;
  CleanAddr : string;
  ProxyID : Z;
  Forwarder : option UDPAddr;
  PeerAddr : option UDPAddr;
  PeerLocalIP : IP;
  PeerHW : HardwareAddr
}.

(** The fields [IP] and [HardwareAddr] of the source are [IP_] and
    [HardwareAddr_] here, the plain names being those of the types.  The
    fields [Interface], [UDPSocket] and [LocalIPs] play no part in the methods
    below and are left out. *)
Record PTPCloud := mkPTP {
  IP_ : string;
  Mac : string;
  HardwareAddr_ : HardwareAddr;
  Mask : string;
  DeviceName : string;
  IPTool : string;
  Device : option tuntap_Interface;
  NetworkPeers : list NetworkPeer
}.

Definition with_NetworkPeers (ptp : PTPCloud) (peers : list NetworkPeer)
  : PTPCloud :=
  mkPTP (IP_ ptp) (Mac ptp) (HardwareAddr_ ptp) (Mask ptp) (DeviceName ptp)
    (IPTool ptp) (Device ptp) peers.

(** What a method does to the world outside the peer table. *)
Inductive Effect : Type :=
| Log (line : string)
| Resolve (endpoint : string)
| SendMessage (msg : P2PMessage) (dst : option UDPAddr)
| WritePacket (protocol : Z) (packet : list byte)
| Exec (command : list string).

(** ** Peer table *)

(** The inner loop of [PurgePeers]: is [peer.CleanAddr] among [catched]? *)
Definition PurgePeers_found (catched : list string) (peer : NetworkPeer)
  : bool :=
  foldl (fun found addr =>
           if String.eqb addr (CleanAddr peer) then true else found)
    false catched.

(** One iteration of the first loop of [PurgePeers] at index [i]. *)
Definition PurgePeers_body (catched : list string)
    (peers : list NetworkPeer) (remove : list nat) (i : nat) : list nat :=
  match peers !! i with
  | Some peer =>
      if negb (PurgePeers_found catched peer) then remove ++ [i] else remove
  | None => remove
  end.

(** The first loop of [PurgePeers]: the indices of the peers not found. *)
Definition PurgePeers_remove (catched : list string)
    (peers : list NetworkPeer) : list nat :=
  foldl (PurgePeers_body catched peers) [] (seq 0 (length peers)).

(** [sort.Sort(sort.Reverse(sort.IntSlice(remove)))]: decreasing order. *)
Fixpoint insert_desc (x : nat) (l : list nat) : list nat :=
  match l with
  | [] => [x]
  | y :: rest => if (y <=? x)%nat then x :: l else y :: insert_desc x rest
  end.

Fixpoint sort_desc (l : list nat) : list nat :=
  match l with
  | [] => []
  | x :: rest => insert_desc x (sort_desc rest)
  end.

(** [append(s[:i], s[i+1:]...)]; [None] is the run-time panic of the slice
    expression [s[i+1:]] when [i+1 > len(s)]. *)
Definition slice_delete {A : Type} (s : list A) (i : nat) : option (list A) :=
  if decide (i + 1 <= length s)%nat
  then Some (take i s ++ drop (i + 1) s)
  else None.

(** The last loop of [PurgePeers], [for i := range remove]: [i] runs over the
    positions [0 .. len(remove)-1] of [remove]. *)
Fixpoint PurgePeers_loop (positions : list nat) (peers : list NetworkPeer)
  : option (list NetworkPeer) :=
  match positions with
  | [] => Some peers
  | i :: rest =>
      match slice_delete peers i with
      | Some peers' => PurgePeers_loop rest peers'
      | None => None
      end
  end.

Definition PurgePeers (catched : list string) (ptp : PTPCloud)
  : option PTPCloud :=
  let remove := sort_desc (PurgePeers_remove catched (NetworkPeers ptp)) in
  match PurgePeers_loop (seq 0 (length remove)) (NetworkPeers ptp) with
  | Some peers => Some (with_NetworkPeers ptp peers)
  | None => None
  end.

(** The inner loop of [SyncPeers]. *)
Definition SyncPeers_found (addr : string) (peers : list NetworkPeer) : bool :=
  foldl (fun found peer =>
           if String.eqb (CleanAddr peer) addr then true else found)
    false peers.

(** [var newPeer NetworkPeer] with [CleanAddr] and [Unknown] assigned; the
    other fields keep their zero value. *)
Definition SyncPeers_newPeer (addr : string) : NetworkPeer :=
  mkPeer true false addr 0%Z None None [] [].

(** One iteration of the outer loop of [SyncPeers]; [c] counts the peers
    added. *)
Definition SyncPeers_body (st : list NetworkPeer * nat) (addr : string)
  : list NetworkPeer * nat :=
  let '(peers, c) := st in
  if negb (SyncPeers_found addr peers)
  then (peers ++ [SyncPeers_newPeer addr], c + 1)%nat
  else (peers, c).

(** [SyncPeers]: the new table and the number of peers added. *)
Definition SyncPeers (catched : list string) (ptp : PTPCloud)
  : PTPCloud * nat :=
  let '(peers, c) :=
    foldl SyncPeers_body (NetworkPeers ptp, 0%nat) catched in
  (with_NetworkPeers ptp peers, c).

(** The assignments of [AddPeer] to [ptp.NetworkPeers[i]]. *)
Definition AddPeer_update (addr : UDPAddr) (ip : IP) (mac : HardwareAddr)
    (peer : NetworkPeer) : NetworkPeer :=
  mkPeer false true (CleanAddr peer) (ProxyID peer) (Forwarder peer)
    (Some addr) ip mac.

Definition AddPeer_newPeer (addr : UDPAddr) (ip : IP) (mac : HardwareAddr)
  : NetworkPeer :=
  mkPeer false true (UDPAddr_String addr) 0%Z None (Some addr) ip mac.

(** One iteration of the loop of [AddPeer] at index [i]. *)
Definition AddPeer_body (addr : UDPAddr) (ip : IP) (mac : HardwareAddr)
    (st : bool * list NetworkPeer) (i : nat) : bool * list NetworkPeer :=
  let '(found, peers) := st in
  match peers !! i with
  | Some peer =>
      if String.eqb (CleanAddr peer) (UDPAddr_String addr)
      then (true, alter (AddPeer_update addr ip mac) i peers)
      else (found, peers)
  | None => (found, peers)
  end.

(** The loop of [AddPeer] over the indices of the table. *)
Definition AddPeer_loop (addr : UDPAddr) (ip : IP) (mac : HardwareAddr)
    (peers : list NetworkPeer) : bool * list NetworkPeer :=
  foldl (AddPeer_body addr ip mac) (false, peers) (seq 0 (length peers)).

Definition AddPeer (addr : UDPAddr) (ip : IP) (mac : HardwareAddr)
    (ptp : PTPCloud) : PTPCloud :=
  let '(found, peers) := AddPeer_loop addr ip mac (NetworkPeers ptp) in
  if negb found
  then with_NetworkPeers ptp (peers ++ [AddPeer_newPeer addr ip mac])
  else with_NetworkPeers ptp peers.

Fixpoint IsPeerUnknown_loop (addr : UDPAddr) (peers : list NetworkPeer)
  : bool :=
  match peers with
  | [] => true
  | peer :: rest =>
      if String.eqb (CleanAddr peer) (UDPAddr_String addr)
      then Unknown peer
      else IsPeerUnknown_loop addr rest
  end.

Definition IsPeerUnknown (addr : UDPAddr) (ptp : PTPCloud) : bool :=
  IsPeerUnknown_loop addr (NetworkPeers ptp).

(** ** Introductions *)

Definition PrepareIntroductionMessage (ip mac : string) : P2PMessage :=
  let intro := (ip ++ "," ++ mac)%string in
  CreateIntroP2PMessage intro 0%Z.

Definition set_PeerAddr (addr : UDPAddr) (peer : NetworkPeer) : NetworkPeer :=
  mkPeer (Unknown peer) (Handshaked peer) (CleanAddr peer) (ProxyID peer)
    (Forwarder peer) (Some addr) (PeerLocalIP peer) (PeerHW peer).

(** One iteration of the loop of [IntroducePeers] at index [i]. *)
Definition IntroducePeers_step (ptp : PTPCloud)
    (st : list NetworkPeer * list Effect) (i : nat)
  : list NetworkPeer * list Effect :=
  let '(peers, eff) := st in
  match peers !! i with
  | Some peer =>
      if negb (Unknown peer) then (peers, eff)
      else
        let eff1 :=
          eff ++ [Log "[DEBUG] Introducing to %s"; Resolve (CleanAddr peer)] in
        match ResolveUDPAddr (CleanAddr peer) with
        | None =>
            (peers,
             eff1 ++ [Log "[ERROR] Failed to resolve UDP address during Introduction: %v"])
        | Some addr =>
            let msg := PrepareIntroductionMessage (IP_ ptp) (Mac ptp) in
            (alter (set_PeerAddr addr) i peers,
             eff1 ++ [SendMessage msg (Some addr)])
        end
  | None => (peers, eff)
  end.

Definition IntroducePeers (ptp : PTPCloud) : PTPCloud * list Effect :=
  let '(peers, eff) :=
    foldl (IntroducePeers_step ptp) (NetworkPeers ptp, [])
      (seq 0 (length (NetworkPeers ptp))) in
  (with_NetworkPeers ptp peers, eff).

(** One turn of the loop of [main] after the two sleeps; [catched] is
    [dhtClient.LastCatch].  [None] is the panic of [PurgePeers]. *)
Definition MembershipCycle (catched : list string) (ptp : PTPCloud)
  : option (PTPCloud * list Effect) :=
  match PurgePeers catched ptp with
  | None => None
  | Some ptp1 =>
      let '(ptp2, newPeersNum) := SyncPeers catched ptp1 in
      if (0 <? newPeersNum)%nat
      then Some (IntroducePeers ptp2)
      else Some (ptp2, [])
  end.

(** ** Message handler *)

(** [ParseIntroString]: the two results ([nil] is the empty list) and the
    lines it logs. *)
Definition ParseIntroString (intro : string)
  : (IP * HardwareAddr) * list Effect :=
  let parts := Split "," intro in
  if negb (length parts =? 2)%nat
  then (([], []), [Log "[ERROR] Failed to parse introduction stirng"])
  else
    match ParseIP (nth 0 parts "") with
    | [] =>
        (([], []),
         [Log "[ERROR] Failed to parse IP address from introduction packet"])
    | ip =>
        match ParseMAC (nth 1 parts "") with
        | None =>
            (([], []),
             [Log "[ERROR] Failed to parse MAC address from introduction packet: %v"])
        | Some mac => ((ip, mac), [])
        end
    end.

Definition WriteToDevice (b : list byte) (ptp : PTPCloud) : list Effect :=
  match Device ptp with
  | None => [Log "[ERROR] TUN/TAP Device not initialized"]
  | Some _ => [WritePacket 2054 b]
  end.

(** [HandleP2PMessage]; [count] is the number of bytes read and [err] tells
    whether the receive loop handed over an error. *)
Definition HandleP2PMessage (count : nat) (src_addr : UDPAddr) (err : bool)
    (rcv_bytes : list byte) (ptp : PTPCloud) : PTPCloud * list Effect :=
  if err then (ptp, [Log "[ERROR] P2P Message Handle: %v"])
  else
    let buf :=
      take count rcv_bytes ++ replicate (count - length rcv_bytes) x00 in
    match P2PMessageFromBytes buf with
    | None => (ptp, [Log "[ERROR] P2PMessageFromBytes error: %v"])
    | Some msg =>
        let msgType := Header_Type msg in
        let processed := [Log "processed message from %s, msg_data : %s\n"] in
        if N.eqb msgType MT_INTRO then
          let received := [Log "[DEBUG] Introduction message received: %s"] in
          if negb (IsPeerUnknown src_addr ptp) then (ptp, received)
          else
            let '((ip, mac), parse_log) :=
              ParseIntroString (string_of_list_byte (Data msg)) in
            let ptp' := AddPeer src_addr ip mac ptp in
            let reply := PrepareIntroductionMessage (IP_ ptp') (Mac ptp') in
            (ptp',
             received ++ parse_log ++ [SendMessage reply (Some src_addr)]
               ++ processed)
        else if N.eqb msgType MT_NENC then
          (ptp,
           [Log "[DEBUG] Received P2P Message"] ++ WriteToDevice (Data msg) ptp
             ++ processed)
        else (ptp, [Log "[ERROR] Unknown message received"] ++ processed)
    end.

(** ** Forwarding by destination MAC *)

Fixpoint SendTo_loop (dst : HardwareAddr) (msg : P2PMessage)
    (peers : list NetworkPeer) : list Effect :=
  match peers with
  | [] => []
  | peer :: rest =>
      if String.eqb (HardwareAddr_String (PeerHW peer)) (HardwareAddr_String dst)
      then [SendMessage msg (PeerAddr peer)]
      else SendTo_loop dst msg rest
  end.

Definition SendTo (dst : HardwareAddr) (msg : P2PMessage) (ptp : PTPCloud)
  : list Effect :=
  SendTo_loop dst msg (NetworkPeers ptp).

(** ** Start-up *)

(** What the host answers during start-up. *)
Record Host := mkHost {
  (** [ioutil.ReadFile("config.yaml")]; [None] is the error *)
  ReadFile_config : option string;
  (** [yaml.Unmarshal(yamlFile, ptp)]: the filled structure and success *)
  yaml_Unmarshal : string -> PTPCloud -> PTPCloud * bool;
  (** [tuntap.Open(name, tuntap.DevTap)]; [None] is a [nil] device *)
  tuntap_Open : string -> option tuntap_Interface;
  (** [exec.Command(args...).Run()] returned no error *)
  Run : list string -> bool
}.

(** [CreateDevice]; the boolean of the result says that the returned error
    is not [nil]. *)
Definition CreateDevice (host : Host) (ip mac mask device : string)
    (ptp : PTPCloud) : Outcome (PTPCloud * bool) * list Effect :=
  let ptp0 :=
    mkPTP ip mac (HardwareAddr_ ptp) mask device (IPTool ptp) (Device ptp)
      (NetworkPeers ptp) in
  match ReadFile_config host with
  | None => (Returned (ptp0, true), [Log "[ERROR] Failed to load config: %v"])
  | Some yamlFile =>
      let '(ptp1, parsed) := yaml_Unmarshal host yamlFile ptp0 in
      if negb parsed
      then (Returned (ptp1, true), [Log "[ERROR] Failed to parse config: %v"])
      else
        let ptp2 :=
          mkPTP (IP_ ptp1) (Mac ptp1) (HardwareAddr_ ptp1) (Mask ptp1)
            (DeviceName ptp1) (IPTool ptp1)
            (tuntap_Open host (DeviceName ptp1)) (NetworkPeers ptp1) in
        match Device ptp2 with
        | None => (Exited 1, [Log "[FATAL] Failed to open TAP device: %v"])
        | Some _ =>
            let linkup :=
              [IPTool ptp2; "link"; "set"; "dev"; DeviceName ptp2; "up"] in
            let eff1 := [Log "[INFO] %v TAP Device created"; Exec linkup] in
            if negb (Run host linkup)
            then (Exited 1, eff1 ++ [Log "[ERROR] Failed to up link: %v"])
            else
              let setip :=
                [IPTool ptp2; "addr"; "add"; (IP_ ptp2 ++ "/24")%string;
                 "dev"; DeviceName ptp2] in
              let eff2 :=
                eff1 ++ [Log "[INFO] Setting %s IP on device %s\n"; Exec setip] in
              if negb (Run host setip)
              then (Exited 1, eff2 ++ [Log "[FATAL] Failed to set IP: %v"])
              else
                let setmac :=
                  [IPTool ptp2; "link"; "set"; "dev"; DeviceName ptp2;
                   "address"; mac] in
                let eff3 :=
                  eff2 ++ [Log "[INFO] Setting %s MAC on device %s\n"; Exec setmac] in
                if negb (Run host setmac)
                then (Exited 1, eff3 ++ [Log "[FATAL] Failed to set MAC: %v"])
                else (Returned (ptp2, false), eff3)
        end
  end.

Record Args := mkArgs {
  argIp : string;
  argMask : string;
  argMac : string;
  argDev : string;
  argDirect : string;
  argHash : string
}.

(** How far [main] gets: the process ended, or control went past
    [CreateDevice] to [ptp.UDPSocket.Init], the listeners and the membership
    loop with the given engine state. *)
Inductive Progress : Type :=
| Stopped (code : Z)
| Running (ptp : PTPCloud).

(** [main] from flag parsing to the call of [ptp.UDPSocket.Init]; [rnd] is
    the outcome of [rand.Read] should a MAC be generated. *)
Definition main_startup (host : Host) (rnd : option (list byte)) (a : Args)
  : Progress * list Effect :=
  if String.eqb (argIp a) "none" || String.eqb (argMask a) "none"
     || String.eqb (argDev a) "none"
  then (Stopped 1, [])
  else
    let mac_hw :=
      if negb (String.eqb (argMac a) "none") then
        match ParseMAC (argMac a) with
        | None => inl [Log "[ERROR] Invalid MAC address provided: %v"]
        | Some hw => inr (argMac a, hw, [])
        end
      else
        let '(mac, hw) := GenerateMAC rnd in
        inr (mac, hw, [Log "[INFO] Generate MAC for TAP device: %s"])
    in
    match mac_hw with
    | inl eff => (Stopped 0, eff)
    | inr (mac, hw, eff) =>
        (* new(PTPCloud) with ptp.HardwareAddr = hw *)
        let ptp := mkPTP "" "" hw "" "" "" None [] in
        match CreateDevice host (argIp a) mac (argMask a) (argDev a) ptp with
        | (Exited code, eff') => (Stopped code, eff ++ eff')
        | (Returned (ptp', _), eff') => (Running ptp', eff ++ eff')
        end
    end.

(** ** Tables the engine can be in *)

(** The peer table starts empty and is written by four methods only. *)
Inductive Reachable : PTPCloud -> Prop :=
| Reach_start ptp :
    NetworkPeers ptp = [] -> Reachable ptp
| Reach_PurgePeers catched ptp ptp' :
    Reachable ptp -> PurgePeers catched ptp = Some ptp' -> Reachable ptp'
| Reach_SyncPeers catched ptp :
    Reachable ptp -> Reachable (fst (SyncPeers catched ptp))
| Reach_IntroducePeers ptp :
    Reachable ptp -> Reachable (fst (IntroducePeers ptp))
| Reach_AddPeer addr ip mac ptp :
    Reachable ptp -> Reachable (AddPeer addr ip mac ptp).

(** The two flags of a peer agree: [Unknown] is the negation of
    [Handshaked]. *)
Definition flags_agree (peer : NetworkPeer) : Prop :=
  Unknown peer = negb (Handshaked peer).

Definition endpoints (peers : list NetworkPeer) : list string :=
  map CleanAddr peers.

(** ** What the index loops do to one peer

    Each of the loops of [AddPeer] and [IntroducePeers] reads and writes the
    entry of its own index only; these are the entry after the iteration
    and the effects of the iteration. *)

Definition AddPeer_peer (addr : UDPAddr) (ip : IP) (mac : HardwareAddr)
    (peer : NetworkPeer) : NetworkPeer :=
  if String.eqb (CleanAddr peer) (UDPAddr_String addr)
  then AddPeer_update addr ip mac peer
  else peer.

Definition IntroducePeers_peer (peer : NetworkPeer) : NetworkPeer :=
  if negb (Unknown peer) then peer
  else
    match ResolveUDPAddr (CleanAddr peer) with
    | None => peer
    | Some addr => set_PeerAddr addr peer
    end.

Definition IntroducePeers_effects (ptp : PTPCloud) (peer : NetworkPeer)
  : list Effect :=
  if negb (Unknown peer) then []
  else
    [Log "[DEBUG] Introducing to %s"; Resolve (CleanAddr peer)]
      ++ match ResolveUDPAddr (CleanAddr peer) with
         | None =>
             [Log "[ERROR] Failed to resolve UDP address during Introduction: %v"]
         | Some addr =>
             [SendMessage (PrepareIntroductionMessage (IP_ ptp) (Mac ptp))
                (Some addr)]
         end.

(** A peer without handshake has no overlay MAC. *)
Definition mac_known_only_after_handshake (peer : NetworkPeer) : Prop :=
  Handshaked peer = false -> PeerHW peer = [].

(** A handshaked peer has a transport address. *)
Definition handshake_has_address (peer : NetworkPeer) : Prop :=
  Handshaked peer = true -> PeerAddr peer <> None.

End Engine.

(** ** A concrete set of collaborators, for running the model *)

Definition demo_External : External := {|
  UDPAddr := string;
  UDPAddr_String := fun a => a;
  ResolveUDPAddr := fun s => if String.eqb s "nowhere:1" then None else Some s;
  ParseIP := fun s => if String.eqb s "10.0.0.2" then [x0a; x00; x00; x02] else [];
  P2PMessage := N * list byte;
  Header_Type := fst;
  Data := snd;
  P2PMessageFromBytes := fun b =>
    match b with
    | t :: d => Some (Byte.to_N t, d)
    | [] => None
    end;
  CreateIntroP2PMessage := fun intro _ => (1%N, list_byte_of_string intro);
  MT_INTRO := 1%N;
  MT_NENC := 2%N
|}.

Definition demo_peer (unknown handshaked : bool) (endpoint : string)
    (hw : HardwareAddr) : @NetworkPeer demo_External :=
  @mkPeer demo_External unknown handshaked endpoint 0%Z None
    (if handshaked then Some endpoint else None) [] hw.

Definition demo_ptp (peers : list (@NetworkPeer demo_External))
  : @PTPCloud demo_External :=
  @mkPTP demo_External "10.0.0.1" "06:aa:aa:aa:aa:aa" [] "255.255.255.0"
    "vptp0" "/sbin/ip" (Some (TapHandle "vptp0")) peers.

Definition demo_Host (config : option string) (parses tap : bool)
    (fails : list string -> bool) : @Host demo_External :=
  @mkHost demo_External config
    (fun _ ptp =>
       (@mkPTP demo_External (IP_ ptp) (Mac ptp) (HardwareAddr_ ptp) (Mask ptp)
          (DeviceName ptp) (if parses then "/sbin/ip" else IPTool ptp)
          (Device ptp) (NetworkPeers ptp), parses))
    (fun name => if tap then Some (TapHandle name) else None)
    (fun cmd => negb (fails cmd)).

Definition demo_Args : Args :=
  mkArgs "10.0.0.1" "255.255.255.0" "none" "vptp0" "none" "overlay".

(** ** Views used to state what the methods do *)

(** The elements at positions 1, 3, 5, ... of a list. *)
Fixpoint odd_positions {A : Type} (l : list A) : list A :=
  match l with
  | _ :: y :: rest => y :: odd_positions rest
  | _ => []
  end.

Section Views.
Context `{External}.

(** The peers of a table that a snapshot does not list. *)
Definition absent_peers (catched : list string) (peers : list NetworkPeer)
  : list NetworkPeer :=
  List.filter (fun p => negb (PurgePeers_found catched p)) peers.

(** The datagrams among the effects, in order. *)
Definition datagrams (eff : list Effect)
  : list (P2PMessage * option UDPAddr) :=
  flat_map (fun e => match e with
                     | SendMessage msg dst => [(msg, dst)]
                     | _ => []
                     end) eff.

(** The frames written to the TAP device among the effects, in order. *)
Definition tap_writes (eff : list Effect) : list (Z * list byte) :=
  flat_map (fun e => match e with
                     | WritePacket proto b => [(proto, b)]
                     | _ => []
                     end) eff.

(** The commands run among the effects, in order. *)
Definition commands (eff : list Effect) : list (list string) :=
  flat_map (fun e => match e with
                     | Exec cmd => [cmd]
                     | _ => []
                     end) eff.

(** The address an unknown peer is introduced to, if its endpoint
    resolves. *)
Definition introduction_target (peer : NetworkPeer) : option UDPAddr :=
  if Unknown peer then ResolveUDPAddr (CleanAddr peer) else None.

(** ** [FindNetworkAddresses] *)

(** One entry of [net.Interfaces()]: its name and what [Addrs()] returns,
    [None] for the error, otherwise the texts [addr.String()]. *)
Record net_Interface := mkInterface {
  Name : string;
  Addrs : option (list string)
}.

(** What package [net] answers about the host. *)
Record NetHost := mkNetHost {
  (** [net.Interfaces()]; [None] is the error *)
  Interfaces : option (list net_Interface);
  (** the IP returned by [net.ParseCIDR]; [None] is the error, for which the
      returned IP is [nil] *)
  ParseCIDR : string -> option IP;
  IsLoopback : IP -> bool;
  IsMulticast : IP -> bool;
  IsGlobalUnicast : IP -> bool;
  IsLinkLocalUnicast : IP -> bool;
  IsLinkLocalMulticast : IP -> bool;
  IsInterfaceLocalMulticast : IP -> bool
}.

(** The chain of tests on one IP: the decision and the type that is
    logged. *)
Definition FindNetworkAddresses_classify (nh : NetHost) (ip : IP)
  : string * string :=
  if IsLoopback nh ip then ("Ignoring", "Loopback")
  else if IsMulticast nh ip then ("Ignoring", "Multicast")
  else if IsGlobalUnicast nh ip then ("Saving", "Global Unicast")
  else if IsLinkLocalUnicast nh ip then ("Ignoring", "Link Local Unicast")
  else if IsLinkLocalMulticast nh ip then ("Ignoring", "Link Local Multicast")
  else if IsInterfaceLocalMulticast nh ip
       then ("Ignoring", "Interface Local Multicast")
  else ("Ignoring", "Unknown").

(** The body of the inner loop, for one address of an interface. *)
Definition FindNetworkAddresses_addr (nh : NetHost)
    (st : list IP * list Effect) (addr : string) : list IP * list Effect :=
  let '(LocalIPs, eff) := st in
  let '(ip, eff1) :=
    match ParseCIDR nh addr with
    | None => ([], eff ++ [Log "[ERROR] Failed to parse CIDR notation: %v"])
    | Some ip => (ip, eff)
    end in
  let '(decision, ipType) := FindNetworkAddresses_classify nh ip in
  let eff2 := eff1 ++ [Log "[INFO] Interface %s: %s. Type: %s. %s"] in
  if String.eqb decision "Saving"
  then (LocalIPs ++ [ip], eff2)
  else (LocalIPs, eff2).

(** The body of the outer loop, for one interface. *)
Definition FindNetworkAddresses_iface (nh : NetHost)
    (st : list IP * list Effect) (i : net_Interface) : list IP * list Effect :=
  match Addrs i with
  | None =>
      (fst st,
       snd st ++ [Log "[ERROR] Failed to retrieve address for interface %v"])
  | Some addresses => foldl (FindNetworkAddresses_addr nh) st addresses
  end.

(** [FindNetworkAddresses] on the field [LocalIPs]. *)
Definition FindNetworkAddresses (nh : NetHost) (LocalIPs : list IP)
  : list IP * list Effect :=
  let eff0 := [Log "[INFO] Looking for available network interfaces"] in
  match Interfaces nh with
  | None =>
      (LocalIPs,
       eff0 ++ [Log "[ERROR] Failed to retrieve list of network interfaces"])
  | Some inf =>
      let '(LocalIPs', eff) :=
        foldl (FindNetworkAddresses_iface nh) (LocalIPs, eff0) inf in
      (LocalIPs', eff ++ [Log "[INFO] %d interfaces were saved"])
  end.

(** The IP the inner loop works with for an address text. *)
Definition address_ip (nh : NetHost) (addr : string) : IP :=
  match ParseCIDR nh addr with
  | Some ip => ip
  | None => []
  end.

(** The address texts the loops visit, in order. *)
Definition visited_addresses (inf : list net_Interface) : list string :=
  flat_map (fun i => match Addrs i with
                     | Some addresses => addresses
                     | None => []
                     end) inf.

(** An IP that passes the three tests leading to the decision to save. *)
Definition saved_ip (nh : NetHost) (ip : IP) : bool :=
  negb (IsLoopback nh ip) && negb (IsMulticast nh ip) && IsGlobalUnicast nh ip.

(** ** Runs of the engine *)

(** What drives the engine after start-up: a call of [HandleP2PMessage] by
    the UDP listener, or a turn of the loop of [main].  A run takes them one
    after the other. *)
Inductive EngineEvent : Type :=
| Datagram (count : nat) (src_addr : UDPAddr) (err : bool)
    (rcv_bytes : list byte)
| LoopTurn (catched : list string).

Definition engine_step (ptp : PTPCloud) (ev : EngineEvent)
  : option PTPCloud :=
  match ev with
  | Datagram count src_addr err rcv_bytes =>
      Some (fst (HandleP2PMessage count src_addr err rcv_bytes ptp))
  | LoopTurn catched =>
      match MembershipCycle catched ptp with
      | Some (ptp', _) => Some ptp'
      | None => None
      end
  end.

(** [None] when a turn of the loop panics. *)
Fixpoint engine_run (evs : list EngineEvent) (ptp : PTPCloud)
  : option PTPCloud :=
  match evs with
  | [] => Some ptp
  | ev :: rest =>
      match engine_step ptp ev with
      | Some ptp' => engine_run rest ptp'
      | None => None
      end
  end.

End Views.

Definition demo_NetHost : @NetHost :=
  mkNetHost
    (Some [mkInterface "lo" (Some ["127.0.0.1/8"]);
           mkInterface "eth0" (Some ["192.0.2.7/24"; "fe80::1/64"]);
           mkInterface "tun9" None])
    (fun s =>
       if String.eqb s "127.0.0.1/8" then Some [x7f; x00; x00; x01]
       else if String.eqb s "192.0.2.7/24" then Some [xc0; x00; x02; x07]
       else None)
    (fun ip => match ip with x7f :: _ => true | _ => false end)
    (fun ip => match ip with xe0 :: _ => true | _ => false end)
    (fun ip => match ip with xc0 :: _ => true | _ => false end)
    (fun _ => false) (fun _ => false) (fun _ => false).

(** * Properties *)

(** ** The text functions on sample inputs *)

Example ParseMAC_colon : ParseMAC "06:aa:0B:cc:dd:1f" = Some [x06; xaa; x0b; xcc; xdd; x1f].
Proof. vm_compute. reflexivity. Qed.

Example ParseMAC_dotted : ParseMAC "0000.5e00.5301" = Some [x00; x00; x5e; x00; x53; x01].
Proof. vm_compute. reflexivity. Qed.

Example ParseMAC_bad_digit : ParseMAC "06:aa:0B:cc:dd:1g" = None.
Proof. vm_compute. reflexivity. Qed.

Example ParseMAC_mixed_separators : ParseMAC "06:aa:0B:cc:dd-1f" = None.
Proof. vm_compute. reflexivity. Qed.

Example ParseMAC_short : ParseMAC "06:aa:0B" = None.
Proof. vm_compute. reflexivity. Qed.

Example HardwareAddr_String_three : HardwareAddr_String [x06; xaa; x0b] = "06:aa:0b".
Proof. vm_compute. reflexivity. Qed.

Example HardwareAddr_String_nil : HardwareAddr_String [] = "".
Proof. reflexivity. Qed.

Example Split_two : Split "," "10.0.0.2,06:bb:bb:bb:bb:bb" = ["10.0.0.2"; "06:bb:bb:bb:bb:bb"].
Proof. vm_compute. reflexivity. Qed.

Example Split_none : Split "," "hello" = ["hello"].
Proof. vm_compute. reflexivity. Qed.

Example Split_empty : Split "," "" = [""].
Proof. reflexivity. Qed.

Example Split_three : Split "," "a,,b" = ["a"; ""; "b"].
Proof. vm_compute. reflexivity. Qed.

Example GenerateMAC_sample :
  GenerateMAC (Some [xff; x01; x02; x03; x04; x05])
  = ("06:01:02:03:04:05", [x06; x01; x02; x03; x04; x05]).
Proof. vm_compute. reflexivity. Qed.

Example GenerateMAC_no_entropy : GenerateMAC None = ("", []).
Proof. reflexivity. Qed.

(** ** Hexadecimal text of bytes *)

Lemma byte_of_int_to_N (b : byte) : byte_of_int (Byte.to_N b) = b.
Proof. by destruct b. Qed.

Lemma xtoi_hex2 (b : byte) : xtoi (hex2 b) = (Byte.to_N b, 2%nat, true).
Proof. destruct b; vm_compute; reflexivity. Qed.

Lemma hex2_inj (a b : byte) : hex2 a = hex2 b -> a = b.
Proof.
  intros Heq. pose proof (xtoi_hex2 a) as Ha. rewrite Heq, xtoi_hex2 in Ha.
  rewrite <- (byte_of_int_to_N a), <- (byte_of_int_to_N b). congruence.
Qed.

Lemma hex2_chars (b : byte) :
  exists c1 c2 : ascii,
    hex2 b = String c1 (String c2 "")
    /\ c1 <> ":"%char /\ c2 <> ":"%char.
Proof.
  unfold hex2. eexists _, _. split; [reflexivity|].
  split; destruct b; vm_compute; discriminate.
Qed.

(** [xtoi2] reads back a byte printed by [hex2], whether a [":"] follows or
    the string ends. *)
Lemma xtoi2_hex2_sep (b : byte) (rest : string) :
  xtoi2 (hex2 b ++ String ":" rest)%string ":" = (b, true).
Proof. destruct b; reflexivity. Qed.

Lemma xtoi2_hex2_end (b : byte) : xtoi2 (hex2 b) ":" = (b, true).
Proof. destruct b; reflexivity. Qed.

Lemma str_from_3 (x : nat) (a b c : ascii) (rest : string) :
  str_from (x + 3) (String a (String b (String c rest))) = str_from x rest.
Proof. replace (x + 3)%nat with (S (S (S x))) by lia. reflexivity. Qed.

Lemma ParseMAC_sep_shift (cnt : nat) (a b c : ascii) (rest : string) (e : ascii) :
  forall x : nat,
  ParseMAC_sep cnt (String a (String b (String c rest))) (x + 3) e
  = ParseMAC_sep cnt rest x e.
Proof.
  induction cnt as [|cnt IH]; intros x; simpl; [done|].
  by rewrite str_from_3, IH.
Qed.

Lemma ParseMAC_sep_cons (cnt : nat) (b : byte) (rest : string) :
  ParseMAC_sep (S cnt) (hex2 b ++ String ":" rest)%string 0 ":"
  = match ParseMAC_sep cnt rest 0 ":" with
    | Some hw => Some (b :: hw)
    | None => None
    end.
Proof.
  cbn [ParseMAC_sep str_from]. rewrite xtoi2_hex2_sep.
  change (hex2 b ++ String ":" rest)%string
    with (String (hexDigit (N.shiftr (Byte.to_N b) 4))
            (String (hexDigit (N.land (Byte.to_N b) 15)) (String ":" rest))).
  by rewrite (ParseMAC_sep_shift cnt _ _ _ rest ":" 0).
Qed.

Lemma ParseMAC_sep_last (b : byte) :
  ParseMAC_sep 1 (hex2 b) 0 ":" = Some [b].
Proof. cbn [ParseMAC_sep str_from]. by rewrite xtoi2_hex2_end. Qed.

(** The colon form of six bytes, as [HardwareAddr.String] and the format of
    [GenerateMAC] print it, parses back to the six bytes. *)
Lemma ParseMAC_colon6 (b0 b1 b2 b3 b4 b5 : byte) :
  ParseMAC
    (hex2 b0 ++ ":" ++ hex2 b1 ++ ":" ++ hex2 b2 ++ ":" ++ hex2 b3 ++ ":"
       ++ hex2 b4 ++ ":" ++ hex2 b5)%string
  = Some [b0; b1; b2; b3; b4; b5].
Proof.
  assert (Hsep :
    ParseMAC_sep 6
      (hex2 b0 ++ ":" ++ hex2 b1 ++ ":" ++ hex2 b2 ++ ":" ++ hex2 b3 ++ ":"
         ++ hex2 b4 ++ ":" ++ hex2 b5)%string 0 ":"
    = Some [b0; b1; b2; b3; b4; b5]).
  { repeat (progress change (":" ++ ?s)%string with (String ":" s)).
    rewrite !ParseMAC_sep_cons. by rewrite ParseMAC_sep_last. }
  unfold ParseMAC.
  destruct (hex2_chars b0) as (a0 & a0' & E0 & _).
  destruct (hex2_chars b1) as (a1 & a1' & E1 & _).
  destruct (hex2_chars b2) as (a2 & a2' & E2 & _).
  destruct (hex2_chars b3) as (a3 & a3' & E3 & _).
  destruct (hex2_chars b4) as (a4 & a4' & E4 & _).
  destruct (hex2_chars b5) as (a5 & a5' & E5 & _).
  rewrite E0, E1, E2, E3, E4, E5 in *. cbn. cbn in Hsep. exact Hsep.
Qed.

(** C9: without [--mac], [GenerateMAC] sets the locally administered bit of
    the first of the six random bytes in the buffer and returns the text
    ["06:"] followed by the other five bytes as two hexadecimal digits each,
    separated by colons; the first byte has no influence on the result, and
    the text parses as the MAC made of [0x06] and those five bytes. *)
Theorem GenerateMAC_format (b0 b1 b2 b3 b4 b5 : byte) :
  let mac :=
    ("06:" ++ hex2 b1 ++ ":" ++ hex2 b2 ++ ":" ++ hex2 b3 ++ ":" ++ hex2 b4
       ++ ":" ++ hex2 b5)%string in
  GenerateMAC (Some [b0; b1; b2; b3; b4; b5])
  = (mac, [x06; b1; b2; b3; b4; b5])
  /\ ParseMAC mac = Some [x06; b1; b2; b3; b4; b5]
  /\ GenerateMAC_buf [b0; b1; b2; b3; b4; b5]
     = [byte_or b0 x02; b1; b2; b3; b4; b5]
  /\ N.testbit (Byte.to_N (byte_or b0 x02)) 1 = true
  /\ (forall b0' : byte,
        GenerateMAC (Some [b0'; b1; b2; b3; b4; b5])
        = GenerateMAC (Some [b0; b1; b2; b3; b4; b5])).
Proof.
  intros mac.
  assert (Hparse : ParseMAC mac = Some [x06; b1; b2; b3; b4; b5]).
  { apply (ParseMAC_colon6 x06 b1 b2 b3 b4 b5). }
  assert (Hgen : forall c : byte,
            GenerateMAC (Some [c; b1; b2; b3; b4; b5])
            = (mac, [x06; b1; b2; b3; b4; b5])).
  { intros c.
    change (GenerateMAC (Some [c; b1; b2; b3; b4; b5]))
      with (match ParseMAC mac with
            | Some hw => (mac, hw)
            | None => (EmptyString, [])
            end).
    by rewrite Hparse. }
  split; [apply Hgen|]. split; [exact Hparse|]. split; [reflexivity|].
  split; [by destruct b0|]. intros b0'. by rewrite !Hgen.
Qed.

(** ** [HardwareAddr.String] tells addresses apart *)

Lemma HardwareAddr_String_loop_S (i j : nat) (a : list byte) :
  HardwareAddr_String_loop (S i) a = HardwareAddr_String_loop (S j) a.
Proof.
  revert i j. induction a as [|x a IH]; intros i j; simpl; [done|].
  by rewrite (IH (S i) (S j)).
Qed.

Lemma hex2_app_inj (x y : byte) (s t : string) :
  (hex2 x ++ s)%string = (hex2 y ++ t)%string -> x = y /\ s = t.
Proof.
  intros Heq. unfold hex2 in Heq. cbn [String.append] in Heq.
  injection Heq as H1 H2 H3. split; [|done].
  apply hex2_inj. unfold hex2. by rewrite H1, H2.
Qed.

Lemma HardwareAddr_String_loop_sep (i : nat) (x : byte) (a : list byte) :
  HardwareAddr_String_loop (S i) (x :: a)
  = String ":" (hex2 x ++ HardwareAddr_String_loop (S (S i)) a).
Proof. reflexivity. Qed.

Lemma HardwareAddr_String_cons (x : byte) (a : list byte) :
  HardwareAddr_String (x :: a)
  = (hex2 x ++ HardwareAddr_String_loop 1 a)%string.
Proof. reflexivity. Qed.

Lemma String_tail_eq (c d : ascii) (s t : string) :
  String c s = String d t -> s = t.
Proof. by intros [= _ ->]. Qed.

Lemma HardwareAddr_String_loop_inj (a b : list byte) :
  HardwareAddr_String_loop 1 a = HardwareAddr_String_loop 1 b -> a = b.
Proof.
  revert b. induction a as [|x a IH]; intros [|y b]; try done.
  rewrite !HardwareAddr_String_loop_sep.
  intros Heq%String_tail_eq. apply hex2_app_inj in Heq as [-> Hrest]. f_equal.
  apply IH.
  by rewrite (HardwareAddr_String_loop_S 0 1 a),
       (HardwareAddr_String_loop_S 0 1 b).
Qed.

Lemma HardwareAddr_String_nonempty (x : byte) (a : list byte) :
  HardwareAddr_String (x :: a) <> "".
Proof.
  rewrite HardwareAddr_String_cons.
  destruct (hex2_chars x) as (c1 & c2 & -> & _). done.
Qed.

Lemma HardwareAddr_String_inj (a b : HardwareAddr) :
  HardwareAddr_String a = HardwareAddr_String b -> a = b.
Proof.
  destruct a as [|x a], b as [|y b]; [done| | |].
  - intros Heq. symmetry in Heq. by apply HardwareAddr_String_nonempty in Heq.
  - intros Heq. by apply HardwareAddr_String_nonempty in Heq.
  - rewrite !HardwareAddr_String_cons.
    intros Heq. apply hex2_app_inj in Heq as [-> Hrest]. f_equal.
    by apply HardwareAddr_String_loop_inj.
Qed.

(** ** The loops with a [found] flag *)

Lemma foldl_found {A : Type} (test : A -> bool) (l : list A) (acc : bool) :
  foldl (fun found x => if test x then true else found) acc l
  = acc || existsb test l.
Proof.
  revert acc. induction l as [|x l IH]; intros acc; simpl.
  - by rewrite orb_false_r.
  - rewrite IH. destruct (test x), acc; reflexivity.
Qed.

Section PeerTable.
Context `{External}.

Lemma PurgePeers_found_iff (catched : list string) (peer : NetworkPeer) :
  PurgePeers_found catched peer = true <-> CleanAddr peer ∈ catched.
Proof.
  unfold PurgePeers_found.
  rewrite (foldl_found (fun addr => String.eqb addr (CleanAddr peer))).
  simpl. rewrite existsb_exists. split.
  - intros (a & Hin & Heq). apply String.eqb_eq in Heq. subst a.
    by apply list_elem_of_In.
  - intros Hin. exists (CleanAddr peer). split.
    + by apply list_elem_of_In.
    + apply String.eqb_refl.
Qed.

Lemma SyncPeers_found_iff (addr : string) (peers : list NetworkPeer) :
  SyncPeers_found addr peers = true <-> addr ∈ endpoints peers.
Proof.
  unfold SyncPeers_found, endpoints.
  rewrite (foldl_found (fun peer => String.eqb (CleanAddr peer) addr)).
  simpl. rewrite existsb_exists. split.
  - intros (p & Hin & Heq). apply String.eqb_eq in Heq. subst addr.
    apply list_elem_of_In, in_map, Hin.
  - intros Hin. apply list_elem_of_In, in_map_iff in Hin.
    destruct Hin as (p & Heq & Hin). exists p. split; [done|].
    by apply String.eqb_eq.
Qed.

Lemma SyncPeers_found_false (addr : string) (peers : list NetworkPeer) :
  SyncPeers_found addr peers = false <-> addr ∉ endpoints peers.
Proof.
  rewrite <- SyncPeers_found_iff. destruct (SyncPeers_found addr peers); split;
    intros; congruence.
Qed.

Lemma NetworkPeers_with (ptp : PTPCloud) (peers : list NetworkPeer) :
  NetworkPeers (with_NetworkPeers ptp peers) = peers.
Proof. reflexivity. Qed.

Lemma with_NetworkPeers_twice (ptp : PTPCloud) (l k : list NetworkPeer) :
  with_NetworkPeers (with_NetworkPeers ptp l) k = with_NetworkPeers ptp k.
Proof. reflexivity. Qed.

(** ** [SyncPeers] *)

Lemma SyncPeers_unfold (catched : list string) (ptp : PTPCloud) :
  SyncPeers catched ptp
  = (with_NetworkPeers ptp
       (fst (foldl SyncPeers_body (NetworkPeers ptp, 0%nat) catched)),
     snd (foldl SyncPeers_body (NetworkPeers ptp, 0%nat) catched)).
Proof.
  unfold SyncPeers.
  by destruct (foldl SyncPeers_body (NetworkPeers ptp, 0%nat) catched).
Qed.

Lemma SyncPeers_fold (catched : list string) :
  forall (peers : list NetworkPeer) (c : nat),
  exists added : list string,
    foldl SyncPeers_body (peers, c) catched
    = (peers ++ map SyncPeers_newPeer added, (c + length added)%nat)
    /\ NoDup added
    /\ (forall a, a ∈ added <-> a ∈ catched /\ a ∉ endpoints peers).
Proof.
  induction catched as [|addr catched IH]; intros peers c.
  - exists []. simpl. rewrite app_nil_r, Nat.add_0_r.
    split; [done|]. split; [constructor|].
    intros a. split; [by intros ?%elem_of_nil | by intros [?%elem_of_nil _]].
  - simpl. destruct (SyncPeers_found addr peers) eqn:Hf; simpl.
    + apply SyncPeers_found_iff in Hf.
      destruct (IH peers c) as (added & Heq & Hnd & Hin).
      exists added. split; [done|]. split; [done|].
      intros a. rewrite Hin, elem_of_cons. split; [tauto|].
      intros [[->|Ha] Hn]; [done | tauto].
    + apply SyncPeers_found_false in Hf.
      destruct (IH (peers ++ [SyncPeers_newPeer addr]) (c + 1)%nat)
        as (added & Heq & Hnd & Hin).
      assert (Hend : endpoints (peers ++ [SyncPeers_newPeer addr])
                     = endpoints peers ++ [addr]).
      { unfold endpoints. by rewrite map_app. }
      exists (addr :: added). split; [|split].
      * rewrite Heq. simpl. rewrite <- app_assoc. simpl. f_equal. lia.
      * constructor; [|done]. rewrite Hin, Hend.
        intros [_ Hn]. apply Hn, elem_of_app. right. by apply list_elem_of_singleton.
      * intros a. rewrite !elem_of_cons, Hin, Hend, elem_of_app, list_elem_of_singleton.
        split.
        -- intros [->|[Ha Hn]]; [tauto|]. split; [by right|]. tauto.
        -- intros [[->|Ha] Hn]; [by left|].
           destruct (String.eqb_spec a addr) as [->|Hne]; [by left|].
           right. split; [done|]. tauto.
Qed.

Lemma SyncPeers_fold_present (catched : list string) :
  forall (peers : list NetworkPeer) (c : nat),
  (forall a, a ∈ catched -> a ∈ endpoints peers) ->
  foldl SyncPeers_body (peers, c) catched = (peers, c).
Proof.
  induction catched as [|addr catched IH]; intros peers c Hall; [done|].
  simpl. assert (Hf : SyncPeers_found addr peers = true).
  { apply SyncPeers_found_iff, Hall. by left. }
  rewrite Hf. simpl. apply IH. intros a Ha. apply Hall. by right.
Qed.

(** ** Index loops *)

Lemma AddPeer_loop_from (addr : UDPAddr) (ip : IP) (mac : HardwareAddr)
    (l2 : list NetworkPeer) :
  forall (l1 : list NetworkPeer) (found : bool),
  foldl (AddPeer_body addr ip mac) (found, l1 ++ l2)
    (seq (length l1) (length l2))
  = (found || existsb (fun p => String.eqb (CleanAddr p) (UDPAddr_String addr)) l2,
     l1 ++ map (AddPeer_peer addr ip mac) l2).
Proof.
  induction l2 as [|x l2 IH]; intros l1 found.
  - simpl. by rewrite orb_false_r.
  - simpl. rewrite list_lookup_middle by done.
    assert (Hp : AddPeer_peer addr ip mac x
                 = if String.eqb (CleanAddr x) (UDPAddr_String addr)
                   then AddPeer_update addr ip mac x else x) by done.
    rewrite Hp. clear Hp.
    destruct (String.eqb (CleanAddr x) (UDPAddr_String addr)) eqn:Hx.
    + rewrite alter_app_r_alt by lia. rewrite Nat.sub_diag. simpl.
      replace (l1 ++ AddPeer_update addr ip mac x :: l2)
        with ((l1 ++ [AddPeer_update addr ip mac x]) ++ l2)
        by (by rewrite <- app_assoc).
      replace (S (length l1)) with (length (l1 ++ [AddPeer_update addr ip mac x]))
        by (rewrite length_app; simpl; lia).
      rewrite IH. rewrite <- app_assoc. simpl. by rewrite orb_true_r.
    + replace (l1 ++ x :: l2) with ((l1 ++ [x]) ++ l2)
        by (by rewrite <- app_assoc).
      replace (S (length l1)) with (length (l1 ++ [x]))
        by (rewrite length_app; simpl; lia).
      rewrite IH. by rewrite <- app_assoc.
Qed.

Lemma AddPeer_loop_spec (addr : UDPAddr) (ip : IP) (mac : HardwareAddr)
    (peers : list NetworkPeer) :
  AddPeer_loop addr ip mac peers
  = (existsb (fun p => String.eqb (CleanAddr p) (UDPAddr_String addr)) peers,
     map (AddPeer_peer addr ip mac) peers).
Proof. apply (AddPeer_loop_from addr ip mac peers [] false). Qed.

Lemma AddPeer_spec (addr : UDPAddr) (ip : IP) (mac : HardwareAddr)
    (ptp : PTPCloud) :
  NetworkPeers (AddPeer addr ip mac ptp)
  = if existsb (fun p => String.eqb (CleanAddr p) (UDPAddr_String addr))
         (NetworkPeers ptp)
    then map (AddPeer_peer addr ip mac) (NetworkPeers ptp)
    else map (AddPeer_peer addr ip mac) (NetworkPeers ptp)
           ++ [AddPeer_newPeer addr ip mac].
Proof.
  unfold AddPeer. rewrite AddPeer_loop_spec.
  by destruct (existsb _ (NetworkPeers ptp)).
Qed.

Lemma IntroducePeers_from (ptp : PTPCloud) (l2 : list NetworkPeer) :
  forall (l1 : list NetworkPeer) (eff : list Effect),
  foldl (IntroducePeers_step ptp) (l1 ++ l2, eff)
    (seq (length l1) (length l2))
  = (l1 ++ map IntroducePeers_peer l2,
     eff ++ flat_map (IntroducePeers_effects ptp) l2).
Proof.
  induction l2 as [|x l2 IH]; intros l1 eff.
  - simpl. by rewrite !app_nil_r.
  - simpl. rewrite list_lookup_middle by done.
    assert (Hp : IntroducePeers_peer x
                 = if negb (Unknown x) then x
                   else match ResolveUDPAddr (CleanAddr x) with
                        | None => x
                        | Some a => set_PeerAddr a x
                        end) by done.
    assert (He : IntroducePeers_effects ptp x
                 = if negb (Unknown x) then []
                   else [Log "[DEBUG] Introducing to %s"; Resolve (CleanAddr x)]
                          ++ match ResolveUDPAddr (CleanAddr x) with
                             | None =>
                                 [Log "[ERROR] Failed to resolve UDP address during Introduction: %v"]
                             | Some a =>
                                 [SendMessage
                                    (PrepareIntroductionMessage (IP_ ptp) (Mac ptp))
                                    (Some a)]
                             end) by done.
    rewrite Hp, He. clear Hp He.
    assert (Hstep : forall y e,
      foldl (IntroducePeers_step ptp) (l1 ++ y :: l2, e)
        (seq (S (length l1)) (length l2))
      = (l1 ++ y :: map IntroducePeers_peer l2,
         e ++ flat_map (IntroducePeers_effects ptp) l2)).
    { intros y e.
      replace (l1 ++ y :: l2) with ((l1 ++ [y]) ++ l2)
        by (by rewrite <- app_assoc).
      replace (S (length l1)) with (length (l1 ++ [y]))
        by (rewrite length_app; simpl; lia).
      rewrite IH. by rewrite <- app_assoc. }
    destruct (Unknown x); simpl.
    + destruct (ResolveUDPAddr (CleanAddr x)) as [a|].
      * rewrite alter_app_r_alt by lia. rewrite Nat.sub_diag. simpl.
        rewrite Hstep. f_equal. by rewrite <- !app_assoc.
      * rewrite Hstep. f_equal. by rewrite <- !app_assoc.
    + apply Hstep.
Qed.

Lemma IntroducePeers_spec (ptp : PTPCloud) :
  IntroducePeers ptp
  = (with_NetworkPeers ptp (map IntroducePeers_peer (NetworkPeers ptp)),
     flat_map (IntroducePeers_effects ptp) (NetworkPeers ptp)).
Proof.
  unfold IntroducePeers.
  pose proof (IntroducePeers_from ptp (NetworkPeers ptp) [] []) as Hl.
  simpl in Hl. by rewrite Hl.
Qed.

(** ** [PurgePeers] only ever takes entries away *)

Lemma slice_delete_sublist {A : Type} (s s' : list A) (i : nat) :
  slice_delete s i = Some s' -> s' `sublist_of` s.
Proof.
  unfold slice_delete. case_decide; [|done]. intros [= <-].
  replace (i + 1)%nat with (S i) by lia.
  rewrite <- delete_take_drop. apply sublist_delete.
Qed.

Lemma PurgePeers_loop_sublist (positions : list nat) :
  forall peers peers' : list NetworkPeer,
  PurgePeers_loop positions peers = Some peers' -> peers' `sublist_of` peers.
Proof.
  induction positions as [|i rest IH]; intros peers peers'; simpl.
  - by intros [= <-].
  - destruct (slice_delete peers i) as [s|] eqn:Hd; [|done].
    intros Hl. etrans; [by apply IH | by eapply slice_delete_sublist].
Qed.

Lemma PurgePeers_sublist (catched : list string) (ptp ptp' : PTPCloud) :
  PurgePeers catched ptp = Some ptp' ->
  NetworkPeers ptp' `sublist_of` NetworkPeers ptp.
Proof.
  unfold PurgePeers.
  destruct (PurgePeers_loop _ (NetworkPeers ptp)) as [peers|] eqn:Hl; [|done].
  intros [= <-]. simpl. by eapply PurgePeers_loop_sublist.
Qed.

(** ** Invariants of the peer table *)

Lemma sublist_map {A B : Type} (f : A -> B) (l k : list A) :
  l `sublist_of` k -> map f l `sublist_of` map f k.
Proof. induction 1; simpl; by constructor. Qed.

Lemma Forall_sublist_of {A : Type} (P : A -> Prop) (l k : list A) :
  l `sublist_of` k -> Forall P k -> Forall P l.
Proof.
  intros Hs. rewrite !Forall_forall. intros Hk x Hx.
  by eapply Hk, elem_of_sublist.
Qed.

Lemma Forall_map_same {A : Type} (P : A -> Prop) (f : A -> A) (l : list A) :
  (forall x, P x -> P (f x)) -> Forall P l -> Forall P (map f l).
Proof. intros Hf. induction 1; simpl; constructor; auto. Qed.

Lemma Forall_map_all {A B : Type} (P : B -> Prop) (f : A -> B) (l : list A) :
  (forall x, P (f x)) -> Forall P (map f l).
Proof. intros Hf. induction l; simpl; constructor; auto. Qed.

Lemma endpoints_AddPeer_peer (addr : UDPAddr) (ip : IP) (mac : HardwareAddr)
    (peers : list NetworkPeer) :
  endpoints (map (AddPeer_peer addr ip mac) peers) = endpoints peers.
Proof.
  unfold endpoints. induction peers as [|p peers IH]; simpl; [done|].
  rewrite IH. f_equal. unfold AddPeer_peer.
  by destruct (String.eqb (CleanAddr p) (UDPAddr_String addr)).
Qed.

Lemma CleanAddr_IntroducePeers_peer (p : NetworkPeer) :
  CleanAddr (IntroducePeers_peer p) = CleanAddr p.
Proof.
  unfold IntroducePeers_peer. destruct (negb (Unknown p)); [done|].
  by destruct (ResolveUDPAddr (CleanAddr p)).
Qed.

Lemma endpoints_IntroducePeers_peer (peers : list NetworkPeer) :
  endpoints (map IntroducePeers_peer peers) = endpoints peers.
Proof.
  unfold endpoints. induction peers as [|p peers IH]; simpl; [done|].
  by rewrite IH, CleanAddr_IntroducePeers_peer.
Qed.

Lemma existsb_endpoint (a : string) (peers : list NetworkPeer) :
  existsb (fun p => String.eqb (CleanAddr p) a) peers = true
  <-> a ∈ endpoints peers.
Proof.
  rewrite <- SyncPeers_found_iff. unfold SyncPeers_found.
  by rewrite (foldl_found (fun peer => String.eqb (CleanAddr peer) a)).
Qed.

(** A property of single peers that the three writers establish or keep is
    kept by every method that writes the table. *)
Section PerPeer.
Variable P : NetworkPeer -> Prop.
Hypothesis P_new : forall a, P (SyncPeers_newPeer a).
Hypothesis P_handshake :
  forall addr ip mac p, P (AddPeer_update addr ip mac p).
Hypothesis P_handshake_new : forall addr ip mac, P (AddPeer_newPeer addr ip mac).
Hypothesis P_PeerAddr : forall addr p, P p -> P (set_PeerAddr addr p).

Lemma SyncPeers_keeps (catched : list string) (ptp : PTPCloud) :
  Forall P (NetworkPeers ptp) ->
  Forall P (NetworkPeers (fst (SyncPeers catched ptp))).
Proof.
  intros Hall. rewrite SyncPeers_unfold. simpl.
  destruct (SyncPeers_fold catched (NetworkPeers ptp) 0) as (added & -> & _).
  simpl. apply Forall_app. split; [done|]. by apply Forall_map_all.
Qed.

Lemma AddPeer_keeps (addr : UDPAddr) (ip : IP) (mac : HardwareAddr)
    (ptp : PTPCloud) :
  Forall P (NetworkPeers ptp) ->
  Forall P (NetworkPeers (AddPeer addr ip mac ptp)).
Proof.
  intros Hall. rewrite AddPeer_spec.
  assert (Hm : Forall P (map (AddPeer_peer addr ip mac) (NetworkPeers ptp))).
  { apply Forall_map_same; [|done]. intros p Hp. unfold AddPeer_peer.
    by destruct (String.eqb (CleanAddr p) (UDPAddr_String addr)). }
  destruct (existsb _ (NetworkPeers ptp)); [done|].
  apply Forall_app. split; [done|]. by constructor.
Qed.

Lemma IntroducePeers_keeps (ptp : PTPCloud) :
  Forall P (NetworkPeers ptp) ->
  Forall P (NetworkPeers (fst (IntroducePeers ptp))).
Proof.
  intros Hall. rewrite IntroducePeers_spec. simpl.
  apply Forall_map_same; [|done]. intros p Hp. unfold IntroducePeers_peer.
  destruct (negb (Unknown p)); [done|].
  destruct (ResolveUDPAddr (CleanAddr p)); [|done]. by apply P_PeerAddr.
Qed.

Lemma PurgePeers_keeps (catched : list string) (ptp ptp' : PTPCloud) :
  PurgePeers catched ptp = Some ptp' ->
  Forall P (NetworkPeers ptp) -> Forall P (NetworkPeers ptp').
Proof.
  intros Hp. apply Forall_sublist_of. by eapply PurgePeers_sublist.
Qed.

Lemma Reachable_keeps (ptp : PTPCloud) :
  Reachable ptp -> Forall P (NetworkPeers ptp).
Proof.
  induction 1 as [ptp Hnil|catched ptp ptp' _ IH Hp|catched ptp _ IH
                 |ptp _ IH|addr ip mac ptp _ IH].
  - rewrite Hnil. constructor.
  - by eapply PurgePeers_keeps.
  - by apply SyncPeers_keeps.
  - by apply IntroducePeers_keeps.
  - by apply AddPeer_keeps.
Qed.

End PerPeer.

Lemma Reachable_flags_agree (ptp : PTPCloud) :
  Reachable ptp -> Forall flags_agree (NetworkPeers ptp).
Proof. apply Reachable_keeps; done. Qed.

Lemma Reachable_mac_after_handshake (ptp : PTPCloud) :
  Reachable ptp -> Forall mac_known_only_after_handshake (NetworkPeers ptp).
Proof.
  apply Reachable_keeps; done.
Qed.

(** No endpoint is listed twice. *)
Lemma SyncPeers_NoDup (catched : list string) (ptp : PTPCloud) :
  NoDup (endpoints (NetworkPeers ptp)) ->
  NoDup (endpoints (NetworkPeers (fst (SyncPeers catched ptp)))).
Proof.
  intros Hnd. rewrite SyncPeers_unfold. simpl.
  destruct (SyncPeers_fold catched (NetworkPeers ptp) 0)
    as (added & -> & Hnd' & Hin).
  simpl. unfold endpoints. rewrite map_app, map_map. simpl. rewrite map_id.
  apply NoDup_app. split; [done|]. split; [|done].
  intros a Ha Hadd. apply Hin in Hadd. tauto.
Qed.

Lemma AddPeer_NoDup (addr : UDPAddr) (ip : IP) (mac : HardwareAddr)
    (ptp : PTPCloud) :
  NoDup (endpoints (NetworkPeers ptp)) ->
  NoDup (endpoints (NetworkPeers (AddPeer addr ip mac ptp))).
Proof.
  intros Hnd. rewrite AddPeer_spec.
  destruct (existsb _ (NetworkPeers ptp)) eqn:Hex.
  - by rewrite endpoints_AddPeer_peer.
  - unfold endpoints. rewrite map_app. fold (endpoints (map (AddPeer_peer addr ip mac) (NetworkPeers ptp))).
    rewrite endpoints_AddPeer_peer. simpl.
    apply NoDup_app. split; [done|]. split; [|apply NoDup_singleton].
    intros a Ha ->%list_elem_of_singleton.
    apply existsb_endpoint in Ha. congruence.
Qed.

Lemma Reachable_NoDup (ptp : PTPCloud) :
  Reachable ptp -> NoDup (endpoints (NetworkPeers ptp)).
Proof.
  induction 1 as [ptp Hnil|catched ptp ptp' _ IH Hp|catched ptp _ IH
                 |ptp _ IH|addr ip mac ptp _ IH].
  - rewrite Hnil. constructor.
  - eapply sublist_NoDup; [exact IH|].
    apply sublist_map. by eapply PurgePeers_sublist.
  - by apply SyncPeers_NoDup.
  - rewrite IntroducePeers_spec. simpl. by rewrite endpoints_IntroducePeers_peer.
  - by apply AddPeer_NoDup.
Qed.

(** The handler and a turn of the membership loop, the two callers of the
    writers, stay inside the reachable tables. *)
Lemma Reachable_HandleP2PMessage (count : nat) (src_addr : UDPAddr)
    (err : bool) (rcv_bytes : list byte) (ptp : PTPCloud) :
  Reachable ptp ->
  Reachable (fst (HandleP2PMessage count src_addr err rcv_bytes ptp)).
Proof.
  intros Hr. unfold HandleP2PMessage. destruct err; [done|].
  destruct (P2PMessageFromBytes _) as [msg|]; [|done]. cbn zeta.
  destruct (N.eqb (Header_Type msg) MT_INTRO).
  - destruct (negb (IsPeerUnknown src_addr ptp)); [done|].
    destruct (ParseIntroString _) as [[ip mac] parse_log]. simpl.
    by apply Reach_AddPeer.
  - by destruct (N.eqb (Header_Type msg) MT_NENC).
Qed.

Lemma Reachable_MembershipCycle (catched : list string)
    (ptp ptp' : PTPCloud) (eff : list Effect) :
  Reachable ptp -> MembershipCycle catched ptp = Some (ptp', eff) ->
  Reachable ptp'.
Proof.
  intros Hr. unfold MembershipCycle.
  destruct (PurgePeers catched ptp) as [ptp1|] eqn:Hp; [|done].
  pose proof (Reach_PurgePeers catched ptp ptp1 Hr Hp) as Hr1.
  pose proof (Reach_SyncPeers catched ptp1 Hr1) as Hr2.
  destruct (SyncPeers catched ptp1) as [ptp2 n]. simpl in Hr2.
  destruct (0 <? n)%nat.
  - intros [= Heq]. pose proof (Reach_IntroducePeers ptp2 Hr2) as Hr3.
    by rewrite Heq in Hr3.
  - by intros [= <- _].
Qed.

(** [PurgePeers] leaves the table alone when the snapshot lists every
    peer. *)
Lemma PurgePeers_remove_none (catched : list string)
    (peers : list NetworkPeer) (indices : list nat) :
  (forall p, p ∈ peers -> CleanAddr p ∈ catched) ->
  foldl (PurgePeers_body catched peers) [] indices = [].
Proof.
  intros Hall. induction indices as [|i rest IH]; simpl; [done|].
  unfold PurgePeers_body at 2.
  destruct (peers !! i) as [p|] eqn:Hi; [|done].
  assert (Hf : PurgePeers_found catched p = true).
  { apply PurgePeers_found_iff, Hall. by eapply list_elem_of_lookup_2. }
  by rewrite Hf.
Qed.

Lemma PurgePeers_all_listed (catched : list string) (ptp : PTPCloud) :
  (forall p, p ∈ NetworkPeers ptp -> CleanAddr p ∈ catched) ->
  PurgePeers catched ptp = Some ptp.
Proof.
  intros Hall. unfold PurgePeers, PurgePeers_remove.
  rewrite PurgePeers_remove_none by done. simpl. by destruct ptp.
Qed.

(** ** Claims on the peer table *)

(** C8: [SyncPeers] is idempotent.  A first call appends, once each and as
    unknown peers without handshake, exactly the endpoints of the snapshot
    that the table did not list, and returns how many they are; a second call
    with the same snapshot returns 0 and leaves the table as it is. *)
Theorem SyncPeers_idempotent (catched : list string) (ptp : PTPCloud) :
  exists added : list string,
    fst (SyncPeers catched ptp)
    = with_NetworkPeers ptp
        (NetworkPeers ptp ++ map SyncPeers_newPeer added)
    /\ snd (SyncPeers catched ptp) = length added
    /\ NoDup added
    /\ (forall a, a ∈ added <-> a ∈ catched /\ a ∉ endpoints (NetworkPeers ptp))
    /\ (forall a, Unknown (SyncPeers_newPeer a) = true
                  /\ Handshaked (SyncPeers_newPeer a) = false
                  /\ CleanAddr (SyncPeers_newPeer a) = a)
    /\ SyncPeers catched (fst (SyncPeers catched ptp))
       = (fst (SyncPeers catched ptp), 0%nat).
Proof.
  destruct (SyncPeers_fold catched (NetworkPeers ptp) 0)
    as (added & Heq & Hnd & Hin).
  exists added. rewrite !SyncPeers_unfold. simpl. rewrite Heq. simpl.
  split; [done|]. split; [done|]. split; [done|]. split; [done|].
  split; [done|].
  rewrite SyncPeers_fold_present; [done|].
  intros a Ha. unfold endpoints. rewrite map_app, map_map. simpl.
  rewrite map_id. apply elem_of_app.
  destruct (SyncPeers_found a (NetworkPeers ptp)) eqn:Hf.
  - left. by apply SyncPeers_found_iff.
  - right. apply Hin. split; [done|]. by apply SyncPeers_found_false.
Qed.

(** C10: every method that writes the peer table keeps, for every peer,
    [Unknown] equal to the negation of [Handshaked], so that the two flags
    are never both set and never both clear. *)
Theorem flags_agree_preserved (ptp : PTPCloud) :
  Forall flags_agree (NetworkPeers ptp) ->
  (forall catched,
     Forall flags_agree (NetworkPeers (fst (SyncPeers catched ptp))))
  /\ (forall addr ip mac,
        Forall flags_agree (NetworkPeers (AddPeer addr ip mac ptp)))
  /\ Forall flags_agree (NetworkPeers (fst (IntroducePeers ptp)))
  /\ (forall catched ptp',
        PurgePeers catched ptp = Some ptp' ->
        Forall flags_agree (NetworkPeers ptp'))
  /\ (forall p, flags_agree p ->
        ~ (Unknown p = true /\ Handshaked p = true)
        /\ ~ (Unknown p = false /\ Handshaked p = false)).
Proof.
  intros Hall. repeat split.
  - intros catched. by apply SyncPeers_keeps.
  - intros addr ip mac. by apply AddPeer_keeps.
  - by apply IntroducePeers_keeps.
  - intros catched ptp' Hp. by eapply PurgePeers_keeps.
  - intros [Hu Hh]. unfold flags_agree in *. rewrite Hu, Hh in *. done.
  - intros [Hu Hh]. unfold flags_agree in *. rewrite Hu, Hh in *. done.
Qed.

Lemma IsPeerUnknown_absent (addr : UDPAddr) (peers : list NetworkPeer) :
  UDPAddr_String addr ∉ endpoints peers ->
  IsPeerUnknown_loop addr peers = true.
Proof.
  induction peers as [|q rest IH]; simpl; [done|].
  intros Hn. apply not_elem_of_cons in Hn as [Hne Hn].
  destruct (String.eqb_spec (CleanAddr q) (UDPAddr_String addr)); [done|].
  by apply IH.
Qed.

Lemma IsPeerUnknown_present (addr : UDPAddr) (peers : list NetworkPeer)
    (p : NetworkPeer) :
  NoDup (endpoints peers) -> p ∈ peers ->
  CleanAddr p = UDPAddr_String addr ->
  IsPeerUnknown_loop addr peers = Unknown p.
Proof.
  induction peers as [|q rest IH]; simpl; intros Hnd Hp Ha.
  - by apply elem_of_nil in Hp.
  - apply NoDup_cons in Hnd as [Hq Hnd].
    destruct (String.eqb_spec (CleanAddr q) (UDPAddr_String addr)) as [Hqa|Hqa].
    + apply elem_of_cons in Hp as [->|Hp]; [done|].
      exfalso. apply Hq. rewrite Hqa, <- Ha.
      apply list_elem_of_In, in_map. by apply list_elem_of_In.
    + apply elem_of_cons in Hp as [->|Hp]; [congruence|]. by apply IH.
Qed.

Lemma endpoint_listed (a : string) (peers : list NetworkPeer) :
  a ∈ endpoints peers <-> exists p, p ∈ peers /\ CleanAddr p = a.
Proof.
  unfold endpoints. rewrite list_elem_of_In, in_map_iff. split.
  - intros (p & Hp & Hin). exists p. by rewrite list_elem_of_In.
  - intros (p & Hin & Hp). exists p. by rewrite <- list_elem_of_In.
Qed.

(** C7: on every table the engine can be in, [IsPeerUnknown] answers [true]
    exactly when the table lists no peer for the endpoint of the address or
    lists one that has not handshaked, and [false] exactly for a peer that has
    handshaked. *)
Theorem IsPeerUnknown_iff (addr : UDPAddr) (ptp : PTPCloud) :
  Reachable ptp ->
  (IsPeerUnknown addr ptp = true <->
     UDPAddr_String addr ∉ endpoints (NetworkPeers ptp)
     \/ exists p, p ∈ NetworkPeers ptp
                  /\ CleanAddr p = UDPAddr_String addr
                  /\ Handshaked p = false)
  /\ (IsPeerUnknown addr ptp = false <->
        exists p, p ∈ NetworkPeers ptp
                  /\ CleanAddr p = UDPAddr_String addr
                  /\ Handshaked p = true).
Proof.
  intros Hr. pose proof (Reachable_NoDup ptp Hr) as Hnd.
  pose proof (Reachable_flags_agree ptp Hr) as Hfl.
  rewrite Forall_forall in Hfl. unfold IsPeerUnknown.
  destruct (existsb (fun p => String.eqb (CleanAddr p) (UDPAddr_String addr))
              (NetworkPeers ptp)) eqn:Hex.
  - apply existsb_endpoint in Hex. pose proof Hex as Hin.
    apply endpoint_listed in Hex as (p & Hp & Ha).
    rewrite (IsPeerUnknown_present addr _ p Hnd Hp Ha).
    pose proof (Hfl p Hp) as Hpf. unfold flags_agree in Hpf.
    assert (Huniq : forall q, q ∈ NetworkPeers ptp ->
                      CleanAddr q = UDPAddr_String addr ->
                      Handshaked q = Handshaked p).
    { intros q Hq Hqa.
      pose proof (IsPeerUnknown_present addr _ q Hnd Hq Hqa) as E1.
      rewrite (IsPeerUnknown_present addr _ p Hnd Hp Ha) in E1.
      pose proof (Hfl q Hq) as Hqf. unfold flags_agree in Hqf.
      rewrite Hpf, Hqf in E1. by destruct (Handshaked p), (Handshaked q). }
    rewrite Hpf. split; split.
    + intros Hn. right. exists p. destruct (Handshaked p); done.
    + intros [Hn|(q & Hq & Hqa & Hqh)]; [done|].
      rewrite <- (Huniq q Hq Hqa), Hqh. done.
    + intros Hn. exists p. destruct (Handshaked p); done.
    + intros (q & Hq & Hqa & Hqh). rewrite <- (Huniq q Hq Hqa), Hqh. done.
  - assert (Hn : UDPAddr_String addr ∉ endpoints (NetworkPeers ptp)).
    { intros Hin. apply existsb_endpoint in Hin. congruence. }
    rewrite (IsPeerUnknown_absent addr _ Hn). split; split.
    + by left.
    + done.
    + done.
    + intros (q & Hq & Hqa & _). exfalso. apply Hn, endpoint_listed. eauto.
Qed.

Lemma AddPeer_peer_other (addr : UDPAddr) (ip : IP) (mac : HardwareAddr)
    (peers : list NetworkPeer) :
  List.filter (fun p => negb (String.eqb (CleanAddr p) (UDPAddr_String addr)))
    (map (AddPeer_peer addr ip mac) peers)
  = List.filter (fun p => negb (String.eqb (CleanAddr p) (UDPAddr_String addr)))
      peers.
Proof.
  induction peers as [|q rest IH]; simpl; [done|].
  unfold AddPeer_peer at 1 2.
  destruct (String.eqb (CleanAddr q) (UDPAddr_String addr)) eqn:Hq; simpl.
  - rewrite Hq. simpl. apply IH.
  - rewrite Hq. simpl. by rewrite IH.
Qed.

Lemma AddPeer_peer_promoted (addr : UDPAddr) (ip : IP) (mac : HardwareAddr)
    (peers : list NetworkPeer) (p : NetworkPeer) :
  p ∈ map (AddPeer_peer addr ip mac) peers ->
  CleanAddr p = UDPAddr_String addr ->
  Handshaked p = true /\ Unknown p = false /\ PeerHW p = mac
  /\ PeerLocalIP p = ip /\ PeerAddr p = Some addr.
Proof.
  rewrite list_elem_of_In, in_map_iff. intros (q & <- & _).
  unfold AddPeer_peer.
  destruct (String.eqb_spec (CleanAddr q) (UDPAddr_String addr)); [done|].
  intros. congruence.
Qed.

(** C3, as the code has it: [AddPeer] cannot fail and does not look at the
    overlay MAC of any other peer.  Whatever the table and the MAC, the table
    afterwards lists the endpoint of the address, every entry of that endpoint
    is handshaked with the given address, IP and MAC, and the entries of
    other endpoints are what they were, in the same order. *)
Theorem AddPeer_always_promotes (addr : UDPAddr) (ip : IP)
    (mac : HardwareAddr) (ptp : PTPCloud) :
  (exists p, p ∈ NetworkPeers (AddPeer addr ip mac ptp)
             /\ CleanAddr p = UDPAddr_String addr)
  /\ (forall p, p ∈ NetworkPeers (AddPeer addr ip mac ptp) ->
        CleanAddr p = UDPAddr_String addr ->
        Handshaked p = true /\ Unknown p = false /\ PeerHW p = mac
        /\ PeerLocalIP p = ip /\ PeerAddr p = Some addr)
  /\ List.filter
       (fun p => negb (String.eqb (CleanAddr p) (UDPAddr_String addr)))
       (NetworkPeers (AddPeer addr ip mac ptp))
     = List.filter
         (fun p => negb (String.eqb (CleanAddr p) (UDPAddr_String addr)))
         (NetworkPeers ptp).
Proof.
  rewrite AddPeer_spec.
  destruct (existsb _ (NetworkPeers ptp)) eqn:Hex.
  - split; [|split].
    + apply endpoint_listed. rewrite endpoints_AddPeer_peer.
      by apply existsb_endpoint.
    + intros p. apply AddPeer_peer_promoted.
    + apply AddPeer_peer_other.
  - split; [|split].
    + exists (AddPeer_newPeer addr ip mac). split; [|done].
      apply elem_of_app. right. by apply list_elem_of_singleton.
    + intros p [Hp| ->%list_elem_of_singleton]%elem_of_app; [|done].
      by apply (AddPeer_peer_promoted addr ip mac (NetworkPeers ptp)).
    + rewrite List.filter_app, AddPeer_peer_other. simpl.
      rewrite String.eqb_refl. simpl. by rewrite app_nil_r.
Qed.

Lemma Reachable_handshake_has_address (ptp : PTPCloud) :
  Reachable ptp -> Forall handshake_has_address (NetworkPeers ptp).
Proof. apply Reachable_keeps; done. Qed.

(** ** Forwarding by destination MAC *)

Lemma SendTo_loop_cases (dst : HardwareAddr) (msg : P2PMessage)
    (peers : list NetworkPeer) :
  (SendTo_loop dst msg peers = []
   /\ forall p, p ∈ peers -> PeerHW p <> dst)
  \/ (exists p, p ∈ peers /\ PeerHW p = dst
                /\ SendTo_loop dst msg peers = [SendMessage msg (PeerAddr p)]).
Proof.
  induction peers as [|q rest IH]; simpl.
  - left. split; [done|]. by intros p ?%elem_of_nil.
  - destruct (String.eqb_spec (HardwareAddr_String (PeerHW q))
                (HardwareAddr_String dst)) as [Heq|Hne].
    + right. exists q. split; [by left|].
      split; [by apply HardwareAddr_String_inj | done].
    + destruct IH as [[Hnil Hall]|(p & Hp & Hd & Hs)].
      * left. split; [done|].
        intros p [->|Hp]%elem_of_cons; [congruence | by apply Hall].
      * right. exists p. split; [by right | done].
Qed.

(** C6: on every table the engine can be in and for every six-byte
    destination MAC, [SendTo] hands the message once to [SendMessage], for the
    transport address of a handshaked peer whose overlay MAC is the
    destination, when there is such a peer, and sends nothing when no
    handshaked peer has that MAC. *)
Theorem SendTo_routes_by_mac (dst : HardwareAddr) (msg : P2PMessage)
    (ptp : PTPCloud) :
  Reachable ptp -> length dst = 6%nat ->
  ((exists p, p ∈ NetworkPeers ptp /\ Handshaked p = true /\ PeerHW p = dst) ->
   exists p addr,
     p ∈ NetworkPeers ptp /\ Handshaked p = true /\ PeerHW p = dst
     /\ PeerAddr p = Some addr
     /\ SendTo dst msg ptp = [SendMessage msg (Some addr)])
  /\ ((forall p, p ∈ NetworkPeers ptp -> Handshaked p = true ->
         PeerHW p <> dst) ->
      SendTo dst msg ptp = []).
Proof.
  intros Hr Hlen.
  pose proof (Reachable_mac_after_handshake ptp Hr) as Hmac.
  pose proof (Reachable_handshake_has_address ptp Hr) as Hadr.
  rewrite Forall_forall in Hmac, Hadr. unfold SendTo.
  assert (Hhs : forall p, p ∈ NetworkPeers ptp -> PeerHW p = dst ->
                  Handshaked p = true).
  { intros p Hp Hd. destruct (Handshaked p) eqn:Hh; [done|].
    rewrite (Hmac p Hp Hh) in Hd. by subst dst. }
  destruct (SendTo_loop_cases dst msg (NetworkPeers ptp))
    as [[Hnil Hall]|(p & Hp & Hd & Hs)].
  - split; [|done]. intros (q & Hq & _ & Hqd). by destruct (Hall q Hq).
  - pose proof (Hhs p Hp Hd) as Hh. split.
    + intros _. destruct (PeerAddr p) as [addr|] eqn:Ha.
      * exists p, addr. by rewrite Hs.
      * by destruct (Hadr p Hp Hh).
    + intros Hno. by destruct (Hno p Hp Hh).
Qed.

(** ** Introductions and the membership loop *)

Lemma IntroducePeers_resolves (ptp : PTPCloud) (p : NetworkPeer) :
  p ∈ NetworkPeers ptp -> Unknown p = true ->
  Resolve (CleanAddr p) ∈ snd (IntroducePeers ptp)
  /\ match ResolveUDPAddr (CleanAddr p) with
     | Some a =>
         SendMessage (PrepareIntroductionMessage (IP_ ptp) (Mac ptp)) (Some a)
           ∈ snd (IntroducePeers ptp)
     | None => p ∈ NetworkPeers (fst (IntroducePeers ptp))
     end.
Proof.
  intros Hp Hu. rewrite IntroducePeers_spec. simpl.
  assert (Hin : forall e, e ∈ IntroducePeers_effects ptp p ->
                  e ∈ flat_map (IntroducePeers_effects ptp) (NetworkPeers ptp)).
  { intros e He. apply list_elem_of_In, in_flat_map. exists p.
    split; by apply list_elem_of_In. }
  split.
  - apply Hin. unfold IntroducePeers_effects. rewrite Hu. simpl.
    right. by left.
  - destruct (ResolveUDPAddr (CleanAddr p)) as [a|] eqn:Hres.
    + apply Hin. unfold IntroducePeers_effects. rewrite Hu, Hres. simpl.
      right. right. by left.
    + apply list_elem_of_In, in_map_iff. exists p.
      split; [|by apply list_elem_of_In].
      unfold IntroducePeers_peer. by rewrite Hu, Hres.
Qed.

Lemma SyncPeers_keeps_listed (catched : list string) (ptp : PTPCloud)
    (p : NetworkPeer) :
  p ∈ NetworkPeers ptp -> p ∈ NetworkPeers (fst (SyncPeers catched ptp)).
Proof.
  intros Hp. rewrite SyncPeers_unfold. simpl.
  destruct (SyncPeers_fold catched (NetworkPeers ptp) 0) as (added & -> & _).
  simpl. apply elem_of_app. by left.
Qed.

Lemma SyncPeers_nothing_new (catched : list string) (ptp : PTPCloud) :
  snd (SyncPeers catched ptp) = 0%nat ->
  NetworkPeers (fst (SyncPeers catched ptp)) = NetworkPeers ptp.
Proof.
  rewrite SyncPeers_unfold. simpl.
  destruct (SyncPeers_fold catched (NetworkPeers ptp) 0) as (added & -> & _).
  simpl. intros Hlen. destruct added; [|done]. simpl. by rewrite app_nil_r.
Qed.

(** C4, as the code has it: a peer whose endpoint does not resolve stays in
    the table as it was, unknown and without handshake.  A later turn of the
    membership loop calls the resolver for it again, and introduces the node
    to it when the resolver then succeeds, only if that turn added at least
    one new peer from the snapshot; a turn that adds no peer runs no
    introduction pass at all. *)
Theorem MembershipCycle_retry_needs_new_peer (catched : list string)
    (ptp ptp1 : PTPCloud) (p : NetworkPeer) :
  PurgePeers catched ptp = Some ptp1 ->
  p ∈ NetworkPeers ptp1 -> Unknown p = true ->
  exists ptp' eff,
    MembershipCycle catched ptp = Some (ptp', eff)
    /\ (snd (SyncPeers catched ptp1) = 0%nat ->
        eff = [] /\ NetworkPeers ptp' = NetworkPeers ptp1)
    /\ ((0 < snd (SyncPeers catched ptp1))%nat ->
        Resolve (CleanAddr p) ∈ eff
        /\ match ResolveUDPAddr (CleanAddr p) with
           | Some a =>
               SendMessage
                 (PrepareIntroductionMessage (IP_ ptp1) (Mac ptp1)) (Some a)
                 ∈ eff
           | None => p ∈ NetworkPeers ptp'
           end).
Proof.
  intros Hpurge Hp Hu. unfold MembershipCycle. rewrite Hpurge.
  pose proof (SyncPeers_keeps_listed catched ptp1 p Hp) as Hp2.
  pose proof (SyncPeers_nothing_new catched ptp1) as Hsame.
  assert (Hid : IP_ (fst (SyncPeers catched ptp1)) = IP_ ptp1
                /\ Mac (fst (SyncPeers catched ptp1)) = Mac ptp1).
  { by rewrite SyncPeers_unfold. }
  destruct (SyncPeers catched ptp1) as [ptp2 n]. simpl in *.
  destruct Hid as [Hip Hmac].
  destruct n as [|n]; simpl.
  - exists ptp2, []. split; [done|]. split; [|lia].
    intros _. split; [done|]. by apply Hsame.
  - destruct (IntroducePeers ptp2) as [ptp3 eff] eqn:Hintro.
    exists ptp3, eff. split; [done|]. split; [done|]. intros _.
    pose proof (IntroducePeers_resolves ptp2 p Hp2 Hu) as Hres.
    rewrite Hintro, Hip, Hmac in Hres. exact Hres.
Qed.

(** ** Introduction messages with a payload that does not parse *)

Lemma AddPeer_peer_changes (addr : UDPAddr) (ip : IP) (mac : HardwareAddr)
    (peers : list NetworkPeer) :
  existsb (fun p => String.eqb (CleanAddr p) (UDPAddr_String addr)) peers
  = true ->
  IsPeerUnknown_loop addr peers = true ->
  map (AddPeer_peer addr ip mac) peers <> peers.
Proof.
  induction peers as [|q rest IH]; simpl; [done|].
  unfold AddPeer_peer at 1.
  destruct (String.eqb (CleanAddr q) (UDPAddr_String addr)); simpl.
  - intros _ Hu [= Hq _]. rewrite <- Hq in Hu. done.
  - intros Hex Hu [= Hrest]. by apply IH.
Qed.

Lemma AddPeer_changes_table (addr : UDPAddr) (ip : IP) (mac : HardwareAddr)
    (ptp : PTPCloud) :
  IsPeerUnknown addr ptp = true ->
  NetworkPeers (AddPeer addr ip mac ptp) <> NetworkPeers ptp.
Proof.
  unfold IsPeerUnknown. intros Hu. rewrite AddPeer_spec.
  destruct (existsb _ (NetworkPeers ptp)) eqn:Hex.
  - by apply AddPeer_peer_changes.
  - intros Heq. apply (f_equal length) in Heq.
    rewrite length_app, length_map in Heq. simpl in Heq. lia.
Qed.

(** What the handler does with an introduction from an endpoint that
    [IsPeerUnknown] accepts when [ParseIntroString] fails, that is, returns
    [nil] twice: the endpoint is recorded as handshaked with no IP and no MAC,
    and the reply goes out. *)
Lemma HandleP2PMessage_unparsed_intro (count : nat) (src_addr : UDPAddr)
    (rcv_bytes : list byte) (ptp : PTPCloud) (msg : P2PMessage) :
  P2PMessageFromBytes
    (take count rcv_bytes ++ replicate (count - length rcv_bytes) x00)
  = Some msg ->
  Header_Type msg = MT_INTRO ->
  IsPeerUnknown src_addr ptp = true ->
  fst (ParseIntroString (string_of_list_byte (Data msg))) = ([], []) ->
  fst (HandleP2PMessage count src_addr false rcv_bytes ptp)
  = AddPeer src_addr [] [] ptp
  /\ NetworkPeers (fst (HandleP2PMessage count src_addr false rcv_bytes ptp))
     <> NetworkPeers ptp
  /\ SendMessage (PrepareIntroductionMessage (IP_ ptp) (Mac ptp))
       (Some src_addr)
       ∈ snd (HandleP2PMessage count src_addr false rcv_bytes ptp).
Proof.
  intros Hmsg Hty Hu Hparse.
  assert (Hrun : HandleP2PMessage count src_addr false rcv_bytes ptp
            = (AddPeer src_addr [] [] ptp,
               [Log "[DEBUG] Introduction message received: %s"]
                 ++ snd (ParseIntroString (string_of_list_byte (Data msg)))
                 ++ [SendMessage
                       (PrepareIntroductionMessage (IP_ ptp) (Mac ptp))
                       (Some src_addr)]
                 ++ [Log "processed message from %s, msg_data : %s\n"])).
  { unfold HandleP2PMessage. rewrite Hmsg. cbn zeta. rewrite Hty, N.eqb_refl, Hu.
    cbn [negb].
    destruct (ParseIntroString (string_of_list_byte (Data msg)))
      as [[ip mac] parse_log].
    simpl in Hparse. injection Hparse as -> ->. simpl. do 2 f_equal.
    unfold AddPeer. by destruct (AddPeer_loop _ _ _ _) as [[|] ?]. }
  rewrite Hrun. simpl. split; [done|]. split.
  - by apply AddPeer_changes_table.
  - right. apply elem_of_app. right. by left.
Qed.

(** ** Start-up *)

Lemma CreateDevice_config_error (host : Host) (ip mac mask device : string)
    (ptp : PTPCloud) :
  ReadFile_config host = None
  \/ (exists yamlFile, ReadFile_config host = Some yamlFile
        /\ forall p, snd (yaml_Unmarshal host yamlFile p) = false) ->
  exists ptp' eff,
    CreateDevice host ip mac mask device ptp = (Returned (ptp', true), eff).
Proof.
  unfold CreateDevice. intros [->|(yamlFile & -> & Hbad)].
  - eauto.
  - match goal with
    | |- context [yaml_Unmarshal host yamlFile ?p0] =>
        specialize (Hbad p0); destruct (yaml_Unmarshal host yamlFile p0) as [p1 ok]
    end.
    simpl in Hbad. subst ok. simpl. eauto.
Qed.

(** [main] drops the error that [CreateDevice] returns. *)
Lemma main_startup_config_error (host : Host) (rnd : option (list byte))
    (a : Args) :
  String.eqb (argIp a) "none" = false ->
  String.eqb (argMask a) "none" = false ->
  String.eqb (argDev a) "none" = false ->
  String.eqb (argMac a) "none" = true ->
  ReadFile_config host = None
  \/ (exists yamlFile, ReadFile_config host = Some yamlFile
        /\ forall p, snd (yaml_Unmarshal host yamlFile p) = false) ->
  exists ptp eff, main_startup host rnd a = (Running ptp, eff).
Proof.
  intros Hip Hmask Hdev Hmac Hcfg. unfold main_startup.
  rewrite Hip, Hmask, Hdev, Hmac. simpl.
  destruct (GenerateMAC rnd) as [mac hw].
  match goal with
  | |- context [CreateDevice host ?i ?m ?k ?d ?p] =>
      destruct (CreateDevice_config_error host i m k d p Hcfg)
        as (ptp' & eff & ->)
  end.
  eauto.
Qed.

(** [CreateDevice] returns without error only when the TAP device is open
    and the three commands succeeded; any other way out of the four set-up
    steps ends the process with status 1. *)
Lemma CreateDevice_success (host : Host) (ip mac mask device : string)
    (ptp ptp' : PTPCloud) :
  fst (CreateDevice host ip mac mask device ptp) = Returned (ptp', false) ->
  Device ptp' <> None
  /\ Run host [IPTool ptp'; "link"; "set"; "dev"; DeviceName ptp'; "up"] = true
  /\ Run host [IPTool ptp'; "addr"; "add"; (IP_ ptp' ++ "/24")%string; "dev";
               DeviceName ptp'] = true
  /\ Run host [IPTool ptp'; "link"; "set"; "dev"; DeviceName ptp'; "address";
               mac] = true.
Proof.
  unfold CreateDevice. destruct (ReadFile_config host) as [yamlFile|]; [|done].
  destruct (yaml_Unmarshal host yamlFile _) as [p1 ok].
  destruct ok; cbn [negb]; [|done]. cbn zeta. cbn [Device].
  destruct (tuntap_Open host (DeviceName p1)) as [dev|] eqn:Hopen; [|done].
  destruct (Run host [IPTool _; "link"; "set"; "dev"; DeviceName _; "up"])
    eqn:E1; cbn [negb]; [|done].
  destruct (Run host [IPTool _; "addr"; "add"; _; "dev"; DeviceName _])
    eqn:E2; cbn [negb]; [|done].
  destruct (Run host [IPTool _; "link"; "set"; "dev"; DeviceName _; "address"; mac])
    eqn:E3; cbn [negb]; [|done].
  cbn [fst]. intros [= <-]. cbn [Device IPTool DeviceName IP_] in *. done.
Qed.


End PeerTable.

(** * Further properties of the engine *)

Section More.
Context `{External}.

(** ** The peer table *)

(** X1: no method that writes the peer table ever lists an endpoint twice:
    [SyncPeers], [AddPeer], [IntroducePeers] and [PurgePeers] each keep the
    endpoints of the table pairwise different. *)
Theorem endpoints_unique_preserved (ptp : PTPCloud) :
  NoDup (endpoints (NetworkPeers ptp)) ->
  (forall catched,
     NoDup (endpoints (NetworkPeers (fst (SyncPeers catched ptp)))))
  /\ (forall addr ip mac,
        NoDup (endpoints (NetworkPeers (AddPeer addr ip mac ptp))))
  /\ NoDup (endpoints (NetworkPeers (fst (IntroducePeers ptp))))
  /\ (forall catched ptp',
        PurgePeers catched ptp = Some ptp' ->
        NoDup (endpoints (NetworkPeers ptp'))).
Proof.
  intros Hnd. split; [|split; [|split]].
  - intros catched. by apply SyncPeers_NoDup.
  - intros addr ip mac. by apply AddPeer_NoDup.
  - rewrite IntroducePeers_spec. simpl.
    by rewrite endpoints_IntroducePeers_peer.
  - intros catched ptp' Hp. eapply sublist_NoDup; [exact Hnd|].
    apply sublist_map. by eapply PurgePeers_sublist.
Qed.

(** ** [PurgePeers], loop by loop *)

Lemma PurgePeers_remove_filter (catched : list string)
    (peers : list NetworkPeer) (indices acc : list nat) :
  foldl (PurgePeers_body catched peers) acc indices
  = acc ++ List.filter
             (fun i => match peers !! i with
                       | Some p => negb (PurgePeers_found catched p)
                       | None => false
                       end) indices.
Proof.
  revert acc. induction indices as [|i rest IH]; intros acc; simpl.
  - by rewrite app_nil_r.
  - rewrite IH. unfold PurgePeers_body.
    destruct (peers !! i) as [p|]; [|done].
    destruct (negb (PurgePeers_found catched p)); [|done].
    by rewrite <- app_assoc.
Qed.

Lemma filter_seq_increasing (P : nat -> bool) (n : nat) :
  forall (a : nat) (l1 l2 l3 : list nat) (x y : nat),
  List.filter P (seq a n) = l1 ++ x :: l2 ++ y :: l3 -> (x < y)%nat.
Proof.
  induction n as [|n IH]; intros a l1 l2 l3 x y Heq; simpl in Heq.
  - by destruct l1.
  - destruct (P a).
    + destruct l1 as [|z l1]; simpl in Heq.
      * injection Heq as Hx Hrest. subst x.
        assert (Hy : y ∈ List.filter P (seq (S a) n)).
        { rewrite Hrest. apply elem_of_app. right. by left. }
        apply list_elem_of_In, filter_In in Hy as [Hy _].
        apply in_seq in Hy. lia.
      * injection Heq as _ Hrest. by eapply IH.
    + by eapply IH.
Qed.

(** X2: the first loop of [PurgePeers] collects, in increasing order, exactly
    the indices of the peers whose endpoint the snapshot does not list. *)
Theorem PurgePeers_remove_indices (catched : list string)
    (peers : list NetworkPeer) :
  (forall i, i ∈ PurgePeers_remove catched peers <->
     exists p, peers !! i = Some p /\ CleanAddr p ∉ catched)
  /\ (forall l1 l2 l3 x y,
        PurgePeers_remove catched peers = l1 ++ x :: l2 ++ y :: l3 ->
        (x < y)%nat).
Proof.
  unfold PurgePeers_remove. rewrite PurgePeers_remove_filter. simpl. split.
  - intros i. rewrite list_elem_of_In, filter_In, in_seq. split.
    + intros [_ Hi]. destruct (peers !! i) as [p|]; [|done].
      exists p. split; [done|]. intros Hin.
      apply PurgePeers_found_iff in Hin. by rewrite Hin in Hi.
    + intros (p & Hi & Hn). split.
      * apply lookup_lt_Some in Hi. lia.
      * rewrite Hi. destruct (PurgePeers_found catched p) eqn:Hf; [|done].
        by apply PurgePeers_found_iff in Hf.
  - intros l1 l2 l3 x y. apply filter_seq_increasing.
Qed.

Lemma insert_desc_length (x : nat) (l : list nat) :
  length (insert_desc x l) = S (length l).
Proof.
  induction l as [|y l IH]; simpl; [done|].
  destruct (y <=? x)%nat; simpl; by rewrite ?IH.
Qed.

Lemma sort_desc_length (l : list nat) : length (sort_desc l) = length l.
Proof.
  induction l as [|x l IH]; simpl; [done|].
  by rewrite insert_desc_length, IH.
Qed.

Lemma filter_index_length (catched : list string) (l2 : list NetworkPeer) :
  forall l1 : list NetworkPeer,
  length (List.filter
            (fun i => match (l1 ++ l2) !! i with
                      | Some p => negb (PurgePeers_found catched p)
                      | None => false
                      end) (seq (length l1) (length l2)))
  = length (absent_peers catched l2).
Proof.
  induction l2 as [|x l2 IH]; intros l1; simpl; [done|].
  rewrite list_lookup_middle by done.
  replace (l1 ++ x :: l2) with ((l1 ++ [x]) ++ l2) by (by rewrite <- app_assoc).
  replace (S (length l1)) with (length (l1 ++ [x]))
    by (rewrite length_app; simpl; lia).
  destruct (negb (PurgePeers_found catched x)); simpl; by rewrite IH.
Qed.

Lemma PurgePeers_remove_length (catched : list string)
    (peers : list NetworkPeer) :
  length (PurgePeers_remove catched peers)
  = length (absent_peers catched peers).
Proof.
  unfold PurgePeers_remove. rewrite PurgePeers_remove_filter. simpl.
  apply (filter_index_length catched peers []).
Qed.

Lemma PurgePeers_loop_positions (k : nat) :
  forall pre rest : list NetworkPeer,
  PurgePeers_loop (seq (length pre) k) (pre ++ rest)
  = if decide (k = 0 \/ 2 * k <= length rest + 1)%nat
    then Some (pre ++ odd_positions (take (2 * k) rest) ++ drop (2 * k) rest)
    else None.
Proof.
  induction k as [|k IH]; intros pre rest.
  - destruct (decide _) as [_|Hn]; [|by destruct Hn; left].
    by rewrite drop_0.
  - cbn [seq PurgePeers_loop]. unfold slice_delete.
    destruct rest as [|x rest].
    + rewrite app_nil_r.
      destruct (decide (length pre + 1 <= length pre)%nat); [lia|].
      destruct (decide _) as [Hk|_]; [|done]. simpl in Hk. lia.
    + destruct (decide (length pre + 1 <= length (pre ++ x :: rest))%nat)
        as [_|Hn]; [|rewrite length_app in Hn; simpl in Hn; lia].
      rewrite take_app_length.
      replace (length pre + 1)%nat with (length (pre ++ [x]))
        by (rewrite length_app; simpl; lia).
      replace (pre ++ x :: rest) with ((pre ++ [x]) ++ rest)
        by (by rewrite <- app_assoc).
      rewrite drop_app_length.
      destruct rest as [|y rest].
      * rewrite app_nil_r. destruct k as [|k].
        -- destruct (decide _) as [_|Hn]; [|destruct Hn; right; simpl; lia].
           simpl. by rewrite app_nil_r.
        -- cbn [seq PurgePeers_loop]. unfold slice_delete.
           destruct (decide (S (length pre) + 1 <= length pre)%nat); [lia|].
           destruct (decide _) as [Hk|_]; [|done]. simpl in Hk. lia.
      * replace (pre ++ y :: rest) with ((pre ++ [y]) ++ rest)
          by (by rewrite <- app_assoc).
        replace (S (length pre)) with (length (pre ++ [y]))
          by (rewrite length_app; simpl; lia).
        rewrite IH.
        replace (2 * S k)%nat with (S (S (2 * k))) by lia.
        cbn [take drop odd_positions length].
        destruct (decide (k = 0 \/ 2 * k <= length rest + 1)%nat) as [Hk|Hk];
          destruct (decide _) as [Hk'|Hk']; try done; try lia.
        by rewrite <- !app_assoc.
Qed.

(** X3: what [PurgePeers] does.  With [k] peers of an [n]-peer table absent
    from the snapshot, the last loop deletes position 0, then position 1 of
    what is left, and so on [k] times, whichever peers stand there: the call
    returns the peers at the odd positions among the first [2k], followed by
    the peers from position [2k] on, when [k = 0] or [2k <= n + 1], and panics
    on a slice bound otherwise. *)
Theorem PurgePeers_by_position (catched : list string) (ptp : PTPCloud) :
  let peers := NetworkPeers ptp in
  let k := length (absent_peers catched peers) in
  PurgePeers catched ptp
  = if decide (k = 0 \/ 2 * k <= length peers + 1)%nat
    then Some (with_NetworkPeers ptp
                 (odd_positions (take (2 * k) peers) ++ drop (2 * k) peers))
    else None.
Proof.
  intros peers k. unfold PurgePeers.
  rewrite sort_desc_length, PurgePeers_remove_length. fold peers. fold k.
  pose proof (PurgePeers_loop_positions k [] peers) as Hl.
  cbn [length app] in Hl. rewrite Hl.
  by destruct (decide _).
Qed.

(** X4: when [PurgePeers] returns, it has only taken entries away: the new
    table is the old one with some entries left out, the others unchanged and
    in the same order, and no other field of the engine is touched; a table
    whose peers are all in the snapshot is returned as it is. *)
Theorem PurgePeers_only_removes (catched : list string) (ptp ptp' : PTPCloud) :
  PurgePeers catched ptp = Some ptp' ->
  NetworkPeers ptp' `sublist_of` NetworkPeers ptp
  /\ ptp' = with_NetworkPeers ptp (NetworkPeers ptp')
  /\ ((forall p, p ∈ NetworkPeers ptp -> CleanAddr p ∈ catched) ->
      ptp' = ptp).
Proof.
  intros Hp. split; [by eapply PurgePeers_sublist|]. split.
  - unfold PurgePeers in Hp.
    destruct (PurgePeers_loop _ _) as [peers|]; [|done].
    by injection Hp as <-.
  - intros Hall. rewrite (PurgePeers_all_listed catched ptp Hall) in Hp.
    by injection Hp as <-.
Qed.

(** ** [AddPeer] and the gate of the handler *)

Lemma with_NetworkPeers_same (ptp : PTPCloud) :
  with_NetworkPeers ptp (NetworkPeers ptp) = ptp.
Proof. by destruct ptp. Qed.

Lemma AddPeer_as_with (addr : UDPAddr) (ip : IP) (mac : HardwareAddr)
    (ptp : PTPCloud) :
  AddPeer addr ip mac ptp
  = with_NetworkPeers ptp (NetworkPeers (AddPeer addr ip mac ptp)).
Proof.
  unfold AddPeer. destruct (AddPeer_loop _ _ _ _) as [found peers].
  by destruct found.
Qed.

Lemma AddPeer_peer_twice (addr : UDPAddr) (ip : IP) (mac : HardwareAddr)
    (p : NetworkPeer) :
  AddPeer_peer addr ip mac (AddPeer_peer addr ip mac p)
  = AddPeer_peer addr ip mac p.
Proof.
  unfold AddPeer_peer.
  destruct (String.eqb (CleanAddr p) (UDPAddr_String addr)) eqn:E; simpl;
    by rewrite E.
Qed.

Lemma existsb_AddPeer_peer (addr : UDPAddr) (ip : IP) (mac : HardwareAddr)
    (peers : list NetworkPeer) :
  existsb (fun p => String.eqb (CleanAddr p) (UDPAddr_String addr))
    (map (AddPeer_peer addr ip mac) peers)
  = existsb (fun p => String.eqb (CleanAddr p) (UDPAddr_String addr)) peers.
Proof.
  induction peers as [|q rest IH]; simpl; [done|]. rewrite IH. f_equal.
  unfold AddPeer_peer.
  by destruct (String.eqb (CleanAddr q) (UDPAddr_String addr)) eqn:E.
Qed.

(** X5: [AddPeer] is idempotent: a second call with the same address, IP and
    MAC leaves the engine exactly as the first call left it. *)
Theorem AddPeer_idempotent (addr : UDPAddr) (ip : IP) (mac : HardwareAddr)
    (ptp : PTPCloud) :
  AddPeer addr ip mac (AddPeer addr ip mac ptp) = AddPeer addr ip mac ptp.
Proof.
  rewrite (AddPeer_as_with addr ip mac (AddPeer addr ip mac ptp)).
  assert (Hl : NetworkPeers (AddPeer addr ip mac (AddPeer addr ip mac ptp))
               = NetworkPeers (AddPeer addr ip mac ptp)).
  { rewrite (AddPeer_spec addr ip mac (AddPeer addr ip mac ptp)).
    rewrite (AddPeer_spec addr ip mac ptp).
    destruct (existsb _ (NetworkPeers ptp)) eqn:Hex.
    - rewrite existsb_AddPeer_peer, Hex, map_map.
      apply map_ext. intros p. apply AddPeer_peer_twice.
    - rewrite existsb_app, existsb_AddPeer_peer, Hex. simpl.
      rewrite String.eqb_refl. simpl. rewrite map_app, map_map. simpl.
      f_equal.
      + apply map_ext. intros p. apply AddPeer_peer_twice.
      + unfold AddPeer_peer. simpl. by rewrite String.eqb_refl. }
  rewrite Hl. apply with_NetworkPeers_same.
Qed.

Lemma IsPeerUnknown_loop_AddPeer_peer (addr : UDPAddr) (ip : IP)
    (mac : HardwareAddr) (peers tail : list NetworkPeer) :
  IsPeerUnknown_loop addr (map (AddPeer_peer addr ip mac) peers ++ tail)
  = if existsb (fun p => String.eqb (CleanAddr p) (UDPAddr_String addr)) peers
    then false
    else IsPeerUnknown_loop addr tail.
Proof.
  induction peers as [|q rest IH]; simpl; [done|].
  unfold AddPeer_peer at 1 2.
  destruct (String.eqb (CleanAddr q) (UDPAddr_String addr)) eqn:E; simpl;
    rewrite E; [done | apply IH].
Qed.

Lemma IsPeerUnknown_loop_other (addr addr' : UDPAddr) (ip : IP)
    (mac : HardwareAddr) (peers tail : list NetworkPeer) :
  UDPAddr_String addr' <> UDPAddr_String addr ->
  IsPeerUnknown_loop addr' (map (AddPeer_peer addr ip mac) peers ++ tail)
  = if existsb (fun p => String.eqb (CleanAddr p) (UDPAddr_String addr')) peers
    then IsPeerUnknown_loop addr' peers
    else IsPeerUnknown_loop addr' tail.
Proof.
  intros Hne. induction peers as [|q rest IH]; simpl; [done|].
  unfold AddPeer_peer at 1 2.
  destruct (String.eqb_spec (CleanAddr q) (UDPAddr_String addr)) as [Eq|Eq];
    simpl.
  - destruct (String.eqb_spec (CleanAddr q) (UDPAddr_String addr'));
      [congruence|]. apply IH.
  - destruct (String.eqb_spec (CleanAddr q) (UDPAddr_String addr'));
      [done | apply IH].
Qed.

Lemma IsPeerUnknown_loop_absent (addr : UDPAddr) (peers : list NetworkPeer) :
  existsb (fun p => String.eqb (CleanAddr p) (UDPAddr_String addr)) peers
  = false ->
  IsPeerUnknown_loop addr peers = true.
Proof.
  induction peers as [|q rest IH]; simpl; [done|].
  destruct (String.eqb (CleanAddr q) (UDPAddr_String addr)); [done|].
  apply IH.
Qed.

Lemma IsPeerUnknown_after_AddPeer (addr : UDPAddr) (ip : IP)
    (mac : HardwareAddr) (ptp : PTPCloud) :
  IsPeerUnknown addr (AddPeer addr ip mac ptp) = false.
Proof.
  unfold IsPeerUnknown. rewrite AddPeer_spec.
  destruct (existsb _ (NetworkPeers ptp)) eqn:Hex.
  - rewrite <- (app_nil_r (map _ _)), IsPeerUnknown_loop_AddPeer_peer.
    by rewrite Hex.
  - rewrite IsPeerUnknown_loop_AddPeer_peer, Hex. simpl.
    by rewrite String.eqb_refl.
Qed.

(** X6: [AddPeer] closes the gate for its own endpoint and for no other.  On
    every table, [IsPeerUnknown] of the address just added is [false], and
    its answer for an address with another endpoint text is what it was
    before the call. *)
Theorem AddPeer_closes_gate (addr : UDPAddr) (ip : IP) (mac : HardwareAddr)
    (ptp : PTPCloud) :
  IsPeerUnknown addr (AddPeer addr ip mac ptp) = false
  /\ (forall addr',
        UDPAddr_String addr' <> UDPAddr_String addr ->
        IsPeerUnknown addr' (AddPeer addr ip mac ptp)
        = IsPeerUnknown addr' ptp).
Proof.
  split; [apply IsPeerUnknown_after_AddPeer|].
  unfold IsPeerUnknown. rewrite AddPeer_spec.
  intros addr' Hne.
  assert (Hnew : IsPeerUnknown_loop addr' [AddPeer_newPeer addr ip mac]
                 = true).
  { simpl. destruct (String.eqb_spec (UDPAddr_String addr)
                       (UDPAddr_String addr')); [congruence | done]. }
  destruct (existsb (fun p => String.eqb (CleanAddr p) (UDPAddr_String addr))
              (NetworkPeers ptp)).
  - rewrite <- (app_nil_r (map _ _)), IsPeerUnknown_loop_other by done.
    destruct (existsb _ (NetworkPeers ptp)) eqn:Hex'; [done|].
    by rewrite (IsPeerUnknown_loop_absent addr' (NetworkPeers ptp)).
  - rewrite IsPeerUnknown_loop_other by done. rewrite Hnew.
    destruct (existsb _ (NetworkPeers ptp)) eqn:Hex'; [done|].
    by rewrite (IsPeerUnknown_loop_absent addr' (NetworkPeers ptp)).
Qed.

(** ** The message handler *)

Lemma datagrams_app (e1 e2 : list Effect) :
  datagrams (e1 ++ e2) = datagrams e1 ++ datagrams e2.
Proof. apply flat_map_app. Qed.

Lemma tap_writes_app (e1 e2 : list Effect) :
  tap_writes (e1 ++ e2) = tap_writes e1 ++ tap_writes e2.
Proof. apply flat_map_app. Qed.

Lemma ParseIntroString_log (intro : string) :
  snd (ParseIntroString intro) = []
  \/ exists line, snd (ParseIntroString intro) = [Log line].
Proof.
  unfold ParseIntroString.
  destruct (negb _); [right; eauto|].
  destruct (ParseIP _); [right; eauto|].
  destruct (ParseMAC _); [by left | right; eauto].
Qed.

Lemma ParseIntroString_quiet (intro : string) :
  datagrams (snd (ParseIntroString intro)) = []
  /\ tap_writes (snd (ParseIntroString intro)) = [].
Proof. by destruct (ParseIntroString_log intro) as [->|[line ->]]. Qed.

(** X7: what one datagram can do.  Whatever arrives, the handler either
    leaves the engine as it is and sends nothing, or, for an introduction
    from an endpoint that [IsPeerUnknown] lets through, replaces the engine
    by the result of one [AddPeer] for the source address and sends exactly
    one datagram: the introduction of the local node, to the source
    address. *)
Theorem HandleP2PMessage_outcomes (count : nat) (src_addr : UDPAddr)
    (err : bool) (rcv_bytes : list byte) (ptp : PTPCloud) :
  (fst (HandleP2PMessage count src_addr err rcv_bytes ptp) = ptp
   /\ datagrams (snd (HandleP2PMessage count src_addr err rcv_bytes ptp)) = [])
  \/ (IsPeerUnknown src_addr ptp = true
      /\ exists ip mac,
           fst (HandleP2PMessage count src_addr err rcv_bytes ptp)
           = AddPeer src_addr ip mac ptp
           /\ datagrams
                (snd (HandleP2PMessage count src_addr err rcv_bytes ptp))
              = [(PrepareIntroductionMessage (IP_ ptp) (Mac ptp),
                  Some src_addr)]).
Proof.
  unfold HandleP2PMessage. destruct err; [by left|].
  destruct (P2PMessageFromBytes _) as [msg|]; [|by left]. cbn zeta.
  destruct (N.eqb (Header_Type msg) MT_INTRO).
  - destruct (IsPeerUnknown src_addr ptp) eqn:Hu; [|by left]. right.
    split; [done|]. cbn [negb].
    pose proof (ParseIntroString_quiet (string_of_list_byte (Data msg)))
      as [Hq _].
    destruct (ParseIntroString _) as [[ip mac] parse_log]. simpl in Hq.
    exists ip, mac. cbn [fst snd]. split; [done|].
    rewrite !datagrams_app, Hq. simpl.
    by rewrite (AddPeer_as_with src_addr ip mac ptp).
  - left. destruct (N.eqb (Header_Type msg) MT_NENC); [|done].
    split; [done|]. unfold WriteToDevice. by destruct (Device ptp).
Qed.

(** X8: once an introduction from an address has been handled, the next
    introduction from the same address is dropped: the engine stays as it is
    and the only effect is the debug line. *)
Theorem HandleP2PMessage_second_intro_dropped (count1 count2 : nat)
    (src_addr : UDPAddr) (rcv1 rcv2 : list byte) (ptp : PTPCloud)
    (msg1 msg2 : P2PMessage) :
  P2PMessageFromBytes (take count1 rcv1 ++ replicate (count1 - length rcv1) x00)
  = Some msg1 ->
  Header_Type msg1 = MT_INTRO ->
  P2PMessageFromBytes (take count2 rcv2 ++ replicate (count2 - length rcv2) x00)
  = Some msg2 ->
  Header_Type msg2 = MT_INTRO ->
  HandleP2PMessage count2 src_addr false rcv2
    (fst (HandleP2PMessage count1 src_addr false rcv1 ptp))
  = (fst (HandleP2PMessage count1 src_addr false rcv1 ptp),
     [Log "[DEBUG] Introduction message received: %s"]).
Proof.
  intros Hm1 Ht1 Hm2 Ht2.
  assert (Hgate : IsPeerUnknown src_addr
                    (fst (HandleP2PMessage count1 src_addr false rcv1 ptp))
                  = false).
  { unfold HandleP2PMessage. rewrite Hm1. cbn zeta.
    rewrite Ht1, N.eqb_refl.
    destruct (IsPeerUnknown src_addr ptp) eqn:Hu; [|done]. cbn [negb].
    destruct (ParseIntroString _) as [[ip mac] parse_log]. cbn [fst].
    apply IsPeerUnknown_after_AddPeer. }
  unfold HandleP2PMessage at 1. rewrite Hm2. cbn zeta.
  by rewrite Ht2, N.eqb_refl, Hgate.
Qed.

(** X9: frames reach the TAP device only from messages of type [MT_NENC].
    Whatever arrives, the handler writes nothing to the device, or it writes
    once, the payload of the decoded message as it is, under the protocol
    number 2054, with the engine left as it is; and it does write for every
    [MT_NENC] message when the device is open and [MT_NENC] differs from
    [MT_INTRO]. *)
Theorem HandleP2PMessage_tap_writes (count : nat) (src_addr : UDPAddr)
    (err : bool) (rcv_bytes : list byte) (ptp : PTPCloud) :
  (tap_writes (snd (HandleP2PMessage count src_addr err rcv_bytes ptp)) = []
   \/ exists msg,
        err = false
        /\ P2PMessageFromBytes
             (take count rcv_bytes ++ replicate (count - length rcv_bytes) x00)
           = Some msg
        /\ Header_Type msg = MT_NENC
        /\ Device ptp <> None
        /\ fst (HandleP2PMessage count src_addr err rcv_bytes ptp) = ptp
        /\ tap_writes (snd (HandleP2PMessage count src_addr err rcv_bytes ptp))
           = [(2054%Z, Data msg)])
  /\ (forall msg,
        err = false ->
        P2PMessageFromBytes
          (take count rcv_bytes ++ replicate (count - length rcv_bytes) x00)
        = Some msg ->
        Header_Type msg = MT_NENC -> MT_NENC <> MT_INTRO ->
        Device ptp <> None ->
        tap_writes (snd (HandleP2PMessage count src_addr err rcv_bytes ptp))
        = [(2054%Z, Data msg)]).
Proof.
  split.
  - unfold HandleP2PMessage. destruct err; [by left|].
    destruct (P2PMessageFromBytes _) as [msg|] eqn:Hm; [|by left]. cbn zeta.
    destruct (N.eqb (Header_Type msg) MT_INTRO).
    + left. destruct (negb _); [done|].
      pose proof (ParseIntroString_quiet (string_of_list_byte (Data msg)))
        as [_ Hq].
      destruct (ParseIntroString _) as [[ip mac] parse_log]. simpl in Hq.
      cbn [snd]. by rewrite !tap_writes_app, Hq.
    + destruct (N.eqb_spec (Header_Type msg) MT_NENC) as [Ht|Ht]; [|by left].
      unfold WriteToDevice. destruct (Device ptp) as [dev|] eqn:Hd; [|by left].
      right. exists msg. split; [done|]. split; [done|]. split; [done|].
      split; [done|]. by split.
  - intros msg -> Hm Ht Hne Hd. unfold HandleP2PMessage. rewrite Hm. cbn zeta.
    rewrite Ht. destruct (N.eqb_spec MT_NENC MT_INTRO) as [|_]; [done|].
    rewrite N.eqb_refl. unfold WriteToDevice.
    by destruct (Device ptp).
Qed.

(** ** [ParseIntroString] *)

Lemma Split_not_nil (sep : ascii) (s : string) : Split sep s <> [].
Proof.
  destruct s as [|c s]; simpl; [done|].
  destruct (Ascii.eqb c sep); [done|]. by destruct (Split sep s).
Qed.

Lemma Split_join (a b : string) :
  Split "," a = [a] -> Split "," b = [b] ->
  Split "," (a ++ String "," b)%string = [a; b].
Proof.
  intros Ha Hb. induction a as [|c a IH]; simpl.
  - by rewrite Hb.
  - simpl in Ha. destruct (Ascii.eqb c ","); [done|].
    destruct (Split "," a) as [|part parts] eqn:Hs.
    + by destruct (Split_not_nil "," a).
    + injection Ha as -> ->. by rewrite IH.
Qed.

Lemma ParseMAC_sep_length (cnt : nat) (s : string) (e : ascii) :
  forall (x : nat) (hw : list byte),
  ParseMAC_sep cnt s x e = Some hw -> length hw = cnt.
Proof.
  induction cnt as [|cnt IH]; intros x hw; simpl.
  - by intros [= <-].
  - destruct (xtoi2 _ _) as [b [|]]; [|done].
    destruct (ParseMAC_sep cnt s (x + 3) e) as [hw'|] eqn:Hr; [|done].
    intros [= <-]. simpl. f_equal. by eapply IH.
Qed.

Lemma ParseMAC_dot_length (cnt : nat) (s : string) (e : ascii) :
  forall (x : nat) (hw : list byte),
  ParseMAC_dot cnt s x e = Some hw -> length hw = (2 * cnt)%nat.
Proof.
  induction cnt as [|cnt IH]; intros x hw; simpl.
  - by intros [= <-].
  - destruct (xtoi2 _ _) as [b1 [|]]; [|done].
    destruct (xtoi2 _ _) as [b2 [|]]; [|done].
    destruct (ParseMAC_dot cnt s (x + 5) e) as [hw'|] eqn:Hr; [|done].
    intros [= <-]. simpl. rewrite (IH _ _ Hr). lia.
Qed.

Lemma mac_len_ok_cases (n : nat) :
  mac_len_ok n = true -> n = 6%nat \/ n = 8%nat \/ n = 20%nat.
Proof.
  unfold mac_len_ok. rewrite !orb_true_iff, !Nat.eqb_eq. tauto.
Qed.

Lemma ParseMAC_length (s : string) (hw : HardwareAddr) :
  ParseMAC s = Some hw ->
  length hw = 6%nat \/ length hw = 8%nat \/ length hw = 20%nat.
Proof.
  unfold ParseMAC. destruct (_ <? 14)%nat; [done|].
  destruct (_ || _).
  - destruct (negb (Nat.eqb _ 0)); [done|].
    destruct (mac_len_ok _) eqn:Hok; [|done]. cbn [negb].
    destruct (String.get 2 s); [|done].
    intros Hs%ParseMAC_sep_length. rewrite Hs. by apply mac_len_ok_cases.
  - destruct (ascii_eqb_opt _ _); [|done].
    destruct (negb (Nat.eqb _ 0)); [done|].
    destruct (mac_len_ok _) eqn:Hok; [|done]. cbn [negb].
    destruct (String.get 4 s); [|done].
    intros Hs%ParseMAC_dot_length. rewrite Hs.
    apply mac_len_ok_cases in Hok as [Hn | [Hn | Hn]]; rewrite Hn; simpl; lia.
Qed.

(** X10: an introduction text parses back to what it was built from.  For
    an IP text and a MAC text without a comma that [net.ParseIP] and
    [net.ParseMAC] accept, [ParseIntroString] of the text that
    [PrepareIntroductionMessage] builds, the two joined by a comma, returns
    that IP and that MAC and logs nothing. *)
Theorem ParseIntroString_round_trip (ip_text mac_text : string)
    (hw : HardwareAddr) :
  Split "," ip_text = [ip_text] -> Split "," mac_text = [mac_text] ->
  ParseIP ip_text <> [] -> ParseMAC mac_text = Some hw ->
  ParseIntroString (ip_text ++ "," ++ mac_text)%string
  = ((ParseIP ip_text, hw), []).
Proof.
  intros Hi Hm Hip Hmac. unfold ParseIntroString.
  change ("," ++ mac_text)%string with (String "," mac_text).
  rewrite (Split_join ip_text mac_text Hi Hm). simpl.
  destruct (ParseIP ip_text) as [|b ip]; [done|]. by rewrite Hmac.
Qed.

(** X11: [ParseIntroString] never returns half a result.  Either both
    results are [nil] and exactly one line is logged, or the text has exactly
    two comma-separated parts, the first parses as a non-empty IP, the second
    as a MAC of 6, 8 or 20 bytes, these two are returned and nothing is
    logged. *)
Theorem ParseIntroString_outcomes (intro : string) :
  (fst (ParseIntroString intro) = ([], [])
   /\ exists line, snd (ParseIntroString intro) = [Log line])
  \/ (exists a b mac,
        Split "," intro = [a; b]
        /\ ParseIP a <> []
        /\ ParseMAC b = Some mac
        /\ (length mac = 6%nat \/ length mac = 8%nat \/ length mac = 20%nat)
        /\ ParseIntroString intro = ((ParseIP a, mac), [])).
Proof.
  unfold ParseIntroString.
  destruct (Split "," intro) as [|a [|b [|c parts]]] eqn:Hs; simpl;
    try (left; eauto; fail).
  destruct (ParseIP a) as [|x ip] eqn:Hip; [left; eauto|].
  destruct (ParseMAC b) as [mac|] eqn:Hmac; [|left; eauto].
  right. exists a, b, mac. rewrite Hip. split; [done|]. split; [done|].
  split; [done|]. split; [by apply (ParseMAC_length b)|done].
Qed.

(** ** [SyncPeers] and the membership loop *)

Lemma SyncPeers_covers (catched : list string) (ptp : PTPCloud) (a : string) :
  a ∈ catched -> a ∈ endpoints (NetworkPeers (fst (SyncPeers catched ptp))).
Proof.
  rewrite SyncPeers_unfold. simpl.
  destruct (SyncPeers_fold catched (NetworkPeers ptp) 0)
    as (added & -> & Hnd & Hin).
  simpl. intros Ha. unfold endpoints. rewrite map_app, map_map. simpl.
  rewrite map_id. apply elem_of_app.
  destruct (SyncPeers_found a (NetworkPeers ptp)) eqn:Hf.
  - left. by apply SyncPeers_found_iff.
  - right. apply Hin. split; [done|]. by apply SyncPeers_found_false.
Qed.

(** X12: [SyncPeers] returns 0 exactly when the table already lists every
    endpoint of the snapshot; it never returns more than the length of the
    snapshot, and after the call the table lists every endpoint of the
    snapshot. *)
Theorem SyncPeers_count (catched : list string) (ptp : PTPCloud) :
  (snd (SyncPeers catched ptp) = 0%nat <->
     forall a, a ∈ catched -> a ∈ endpoints (NetworkPeers ptp))
  /\ (snd (SyncPeers catched ptp) <= length catched)%nat
  /\ (forall a, a ∈ catched ->
        a ∈ endpoints (NetworkPeers (fst (SyncPeers catched ptp)))).
Proof.
  split; [|split; [|intros a; apply SyncPeers_covers]];
    rewrite SyncPeers_unfold; simpl;
    destruct (SyncPeers_fold catched (NetworkPeers ptp) 0)
      as (added & -> & Hnd & Hin); simpl.
  - split.
    + intros Hlen a Ha. destruct added; [|done].
      destruct (SyncPeers_found a (NetworkPeers ptp)) eqn:Hf.
      * by apply SyncPeers_found_iff.
      * apply SyncPeers_found_false in Hf.
        assert (a ∈ ([] : list string)) as Hbad by (by apply Hin).
        by apply elem_of_nil in Hbad.
    + intros Hall. destruct added as [|a added]; [done|].
      assert (Ha : a ∈ a :: added) by (by left).
      apply Hin in Ha as [Ha Hn]. by destruct (Hn (Hall a Ha)).
  - apply NoDup_incl_length; [by apply NoDup_ListNoDup|].
    intros a Ha. apply list_elem_of_In. apply list_elem_of_In in Ha.
    by apply Hin in Ha as [Ha _].
Qed.

Lemma MembershipCycle_stable (catched : list string) (ptp : PTPCloud) :
  (forall p, p ∈ NetworkPeers ptp -> CleanAddr p ∈ catched) ->
  (forall a, a ∈ catched -> a ∈ endpoints (NetworkPeers ptp)) ->
  MembershipCycle catched ptp = Some (ptp, []).
Proof.
  intros Hlisted Hall. unfold MembershipCycle.
  rewrite (PurgePeers_all_listed catched ptp Hlisted).
  rewrite SyncPeers_unfold, SyncPeers_fold_present by done. simpl.
  by rewrite with_NetworkPeers_same.
Qed.

(** X13: reconciling twice against the same snapshot.  When the snapshot
    lists every peer of the table, a turn of the membership loop returns, and
    a second turn against the same snapshot leaves the engine as the first
    turn left it and has no effect at all: no resolution, no introduction. *)
Theorem MembershipCycle_twice (catched : list string) (ptp : PTPCloud) :
  (forall p, p ∈ NetworkPeers ptp -> CleanAddr p ∈ catched) ->
  exists ptp1 eff1,
    MembershipCycle catched ptp = Some (ptp1, eff1)
    /\ MembershipCycle catched ptp1 = Some (ptp1, []).
Proof.
  intros Hlisted.
  pose proof (SyncPeers_covers catched ptp) as Hcover.
  assert (Hkeep : forall p,
            p ∈ NetworkPeers (fst (SyncPeers catched ptp)) ->
            CleanAddr p ∈ catched).
  { intros p. rewrite SyncPeers_unfold. simpl.
    destruct (SyncPeers_fold catched (NetworkPeers ptp) 0)
      as (added & -> & _ & Hin).
    simpl. intros [Hp|Hp]%elem_of_app; [by apply Hlisted|].
    apply list_elem_of_In, in_map_iff in Hp as (a & <- & Ha). simpl.
    apply list_elem_of_In in Ha. by apply Hin in Ha as [Ha _]. }
  unfold MembershipCycle at 1.
  rewrite (PurgePeers_all_listed catched ptp Hlisted).
  destruct (SyncPeers catched ptp) as [ptp2 n]. simpl in Hcover, Hkeep.
  destruct (0 <? n)%nat.
  - exists (fst (IntroducePeers ptp2)), (snd (IntroducePeers ptp2)).
    split; [by destruct (IntroducePeers ptp2)|].
    apply MembershipCycle_stable.
    + intros p. rewrite IntroducePeers_spec. simpl.
      intros (q & <- & Hq)%list_elem_of_In%in_map_iff.
      rewrite CleanAddr_IntroducePeers_peer.
      by apply Hkeep, list_elem_of_In.
    + intros a Ha. rewrite IntroducePeers_spec. simpl.
      rewrite endpoints_IntroducePeers_peer. by apply Hcover.
  - exists ptp2, []. split; [done|]. by apply MembershipCycle_stable.
Qed.

(** ** [IntroducePeers] *)

Lemma datagrams_IntroducePeers_effects (ptp : PTPCloud) (p : NetworkPeer) :
  datagrams (IntroducePeers_effects ptp p)
  = match introduction_target p with
    | Some a => [(PrepareIntroductionMessage (IP_ ptp) (Mac ptp), Some a)]
    | None => []
    end.
Proof.
  unfold IntroducePeers_effects, introduction_target.
  destruct (Unknown p); simpl; [|done].
  by destruct (ResolveUDPAddr (CleanAddr p)).
Qed.

(** X14: the introduction pass.  [IntroducePeers] sends one datagram for
    each unknown peer whose endpoint resolves, in the order of the table: the
    introduction of the local node, to the resolved address; it sends nothing
    for a handshaked peer or for an endpoint that does not resolve.  In the
    table it writes only the [PeerAddr] of the peers it introduced itself to:
    the number and order of the peers, their flags, endpoints, IPs and MACs
    stay as they were. *)
Theorem IntroducePeers_sends (ptp : PTPCloud) :
  datagrams (snd (IntroducePeers ptp))
  = map (fun a => (PrepareIntroductionMessage (IP_ ptp) (Mac ptp), Some a))
      (omap introduction_target (NetworkPeers ptp))
  /\ fst (IntroducePeers ptp)
     = with_NetworkPeers ptp (NetworkPeers (fst (IntroducePeers ptp)))
  /\ length (NetworkPeers (fst (IntroducePeers ptp)))
     = length (NetworkPeers ptp)
  /\ (forall i p,
        NetworkPeers ptp !! i = Some p ->
        exists p',
          NetworkPeers (fst (IntroducePeers ptp)) !! i = Some p'
          /\ Unknown p' = Unknown p /\ Handshaked p' = Handshaked p
          /\ CleanAddr p' = CleanAddr p /\ ProxyID p' = ProxyID p
          /\ Forwarder p' = Forwarder p /\ PeerLocalIP p' = PeerLocalIP p
          /\ PeerHW p' = PeerHW p
          /\ PeerAddr p' = match introduction_target p with
                           | Some a => Some a
                           | None => PeerAddr p
                           end).
Proof.
  rewrite IntroducePeers_spec. cbn [fst snd]. rewrite NetworkPeers_with.
  split; [|split; [done|split]].
  - induction (NetworkPeers ptp) as [|p peers IH]; [done|].
    cbn [flat_map]. rewrite datagrams_app, datagrams_IntroducePeers_effects, IH.
    cbn [omap list_omap]. by destruct (introduction_target p).
  - apply length_map.
  - intros i p Hi. exists (IntroducePeers_peer p). split.
    + change (map IntroducePeers_peer (NetworkPeers ptp))
        with (IntroducePeers_peer <$> NetworkPeers ptp).
      by rewrite list_lookup_fmap, Hi.
    + unfold IntroducePeers_peer, introduction_target.
      destruct (Unknown p) eqn:Hu; simpl; [|done].
      by destruct (ResolveUDPAddr (CleanAddr p)).
Qed.

(** ** [SendTo] on any table *)

(** X15: [SendTo] goes by the first match.  On every table and for every
    destination, the empty one included, either no peer has the destination
    as its [PeerHW] and nothing is sent, or the message is handed once to
    [SendMessage] for the [PeerAddr], [nil] or not, of the first peer in the
    table whose [PeerHW] is the destination, whatever the flags of that peer
    and whatever peers follow it. *)
Theorem SendTo_first_match (dst : HardwareAddr) (msg : P2PMessage)
    (ptp : PTPCloud) :
  ((forall q, q ∈ NetworkPeers ptp -> PeerHW q <> dst)
   /\ SendTo dst msg ptp = [])
  \/ (exists l1 p l2,
        NetworkPeers ptp = l1 ++ p :: l2
        /\ (forall q, q ∈ l1 -> PeerHW q <> dst)
        /\ PeerHW p = dst
        /\ SendTo dst msg ptp = [SendMessage msg (PeerAddr p)]).
Proof.
  unfold SendTo. induction (NetworkPeers ptp) as [|q rest IH]; simpl.
  - left. split; [|done]. by intros q ?%elem_of_nil.
  - destruct (String.eqb_spec (HardwareAddr_String (PeerHW q))
                (HardwareAddr_String dst)) as [Heq|Hne].
    + right. exists [], q, rest. split; [done|].
      split; [by intros ? ?%elem_of_nil|].
      split; [by apply HardwareAddr_String_inj | done].
    + assert (Hq : PeerHW q <> dst) by congruence.
      destruct IH as [[Hall Hs]|(l1 & p & l2 & -> & Hl1 & Hp & Hs)].
      * left. split; [|done].
        intros r [->|Hr]%elem_of_cons; [done | by apply Hall].
      * right. exists (q :: l1), p, l2. split; [done|]. split; [|done].
        intros r [->|Hr]%elem_of_cons; [done | by apply Hl1].
Qed.

(** ** [FindNetworkAddresses] *)

Lemma FindNetworkAddresses_decision (nh : NetHost) (ip : IP) :
  String.eqb (fst (FindNetworkAddresses_classify nh ip)) "Saving"
  = saved_ip nh ip.
Proof.
  unfold FindNetworkAddresses_classify, saved_ip.
  destruct (IsLoopback nh ip); [done|]. destruct (IsMulticast nh ip); [done|].
  destruct (IsGlobalUnicast nh ip); [done|].
  destruct (IsLinkLocalUnicast nh ip); [done|].
  destruct (IsLinkLocalMulticast nh ip); [done|].
  by destruct (IsInterfaceLocalMulticast nh ip).
Qed.

Lemma FindNetworkAddresses_addr_fst (nh : NetHost)
    (st : list IP * list Effect) (addr : string) :
  fst (FindNetworkAddresses_addr nh st addr)
  = fst st ++ List.filter (saved_ip nh) [address_ip nh addr].
Proof.
  destruct st as [LocalIPs eff]. unfold FindNetworkAddresses_addr, address_ip.
  destruct (ParseCIDR nh addr) as [ip|].
  - pose proof (FindNetworkAddresses_decision nh ip) as Hd.
    destruct (FindNetworkAddresses_classify nh ip) as [decision ipType].
    simpl in *. rewrite Hd. destruct (saved_ip nh ip); simpl; [done|].
    by rewrite app_nil_r.
  - pose proof (FindNetworkAddresses_decision nh []) as Hd.
    destruct (FindNetworkAddresses_classify nh []) as [decision ipType].
    simpl in *. rewrite Hd. destruct (saved_ip nh []); simpl; [done|].
    by rewrite app_nil_r.
Qed.

Lemma FindNetworkAddresses_addrs_fst (nh : NetHost) (addresses : list string) :
  forall st : list IP * list Effect,
  fst (foldl (FindNetworkAddresses_addr nh) st addresses)
  = fst st ++ List.filter (saved_ip nh) (map (address_ip nh) addresses).
Proof.
  induction addresses as [|addr rest IH]; intros st; simpl.
  - by rewrite app_nil_r.
  - rewrite IH, FindNetworkAddresses_addr_fst. simpl.
    destruct (saved_ip nh (address_ip nh addr)); simpl.
    + by rewrite <- app_assoc.
    + by rewrite app_nil_r.
Qed.

Lemma FindNetworkAddresses_ifaces_fst (nh : NetHost)
    (inf : list net_Interface) :
  forall st : list IP * list Effect,
  fst (foldl (FindNetworkAddresses_iface nh) st inf)
  = fst st
      ++ List.filter (saved_ip nh) (map (address_ip nh) (visited_addresses inf)).
Proof.
  induction inf as [|i rest IH]; intros st; simpl.
  - by rewrite app_nil_r.
  - rewrite IH. unfold FindNetworkAddresses_iface.
    destruct (Addrs i) as [addresses|]; simpl; [|done].
    rewrite FindNetworkAddresses_addrs_fst, map_app, List.filter_app.
    by rewrite <- app_assoc.
Qed.

(** X16: the inventory of local addresses.  [FindNetworkAddresses] only
    appends to [LocalIPs].  It appends, in the order of enumeration, the IP
    of every address of every interface whose addresses could be listed, for
    which the IP is not a loopback address, not a multicast address and is a
    global unicast address, the IP being [nil] when the address text did not
    parse; it appends nothing when the interfaces cannot be listed. *)
Theorem FindNetworkAddresses_saved (nh : NetHost) (LocalIPs : list IP) :
  fst (FindNetworkAddresses nh LocalIPs)
  = LocalIPs
      ++ match Interfaces nh with
         | None => []
         | Some inf =>
             List.filter (saved_ip nh)
               (map (address_ip nh) (visited_addresses inf))
         end.
Proof.
  unfold FindNetworkAddresses. destruct (Interfaces nh) as [inf|]; simpl.
  - pose proof (FindNetworkAddresses_ifaces_fst nh inf
                  (LocalIPs,
                   [Log "[INFO] Looking for available network interfaces"]))
      as Hf.
    by destruct (foldl _ _ inf).
  - by rewrite app_nil_r.
Qed.

(** ** Start-up *)

Lemma commands_app (e1 e2 : list Effect) :
  commands (e1 ++ e2) = commands e1 ++ commands e2.
Proof. apply flat_map_app. Qed.



(** ** Handshake, forwarding and whole runs *)

Lemma AddPeer_peer_match (addr : UDPAddr) (ip : IP) (mac : HardwareAddr)
    (q : NetworkPeer) :
  CleanAddr q = UDPAddr_String addr ->
  AddPeer_peer addr ip mac q = AddPeer_update addr ip mac q.
Proof. intros Eq. unfold AddPeer_peer. by rewrite Eq, String.eqb_refl. Qed.

Lemma AddPeer_peer_no_match (addr : UDPAddr) (ip : IP) (mac : HardwareAddr)
    (q : NetworkPeer) :
  CleanAddr q <> UDPAddr_String addr -> AddPeer_peer addr ip mac q = q.
Proof.
  intros Eq. unfold AddPeer_peer.
  by destruct (String.eqb_spec (CleanAddr q) (UDPAddr_String addr)).
Qed.

Lemma SendTo_loop_AddPeer_peer (addr : UDPAddr) (ip : IP) (mac : HardwareAddr)
    (msg : P2PMessage) (peers tail : list NetworkPeer) :
  (forall q, q ∈ peers ->
     CleanAddr q <> UDPAddr_String addr -> PeerHW q <> mac) ->
  SendTo_loop mac msg (map (AddPeer_peer addr ip mac) peers ++ tail)
  = if existsb (fun p => String.eqb (CleanAddr p) (UDPAddr_String addr)) peers
    then [SendMessage msg (Some addr)]
    else SendTo_loop mac msg tail.
Proof.
  induction peers as [|q rest IH]; intros Hother; [done|].
  cbn [map app SendTo_loop existsb].
  destruct (String.eqb_spec (CleanAddr q) (UDPAddr_String addr)) as [Eq|Eq].
  - rewrite AddPeer_peer_match by done.
    cbn [AddPeer_update PeerHW PeerAddr orb]. by rewrite String.eqb_refl.
  - rewrite AddPeer_peer_no_match by done. cbn [orb].
    destruct (String.eqb_spec (HardwareAddr_String (PeerHW q))
                (HardwareAddr_String mac)) as [Hs|Hs].
    + apply HardwareAddr_String_inj in Hs.
      destruct (Hother q); [by left | done | done].
    + apply IH. intros r Hr. apply Hother. by right.
Qed.

Lemma SendTo_AddPeer (addr : UDPAddr) (ip : IP) (mac : HardwareAddr)
    (msg : P2PMessage) (ptp : PTPCloud) :
  (forall q, q ∈ NetworkPeers ptp ->
     CleanAddr q <> UDPAddr_String addr -> PeerHW q <> mac) ->
  SendTo mac msg (AddPeer addr ip mac ptp) = [SendMessage msg (Some addr)].
Proof.
  intros Hother. unfold SendTo. rewrite AddPeer_spec.
  destruct (existsb _ (NetworkPeers ptp)) eqn:Hex.
  - rewrite <- (app_nil_r (map _ _)).
    rewrite SendTo_loop_AddPeer_peer by done. by rewrite Hex.
  - rewrite SendTo_loop_AddPeer_peer by done. rewrite Hex.
    cbn [SendTo_loop AddPeer_newPeer PeerHW PeerAddr].
    by rewrite String.eqb_refl.
Qed.

(** X19: a handshake makes the peer reachable by its MAC.  On every table
    in which no peer of another endpoint holds the MAC, after
    [AddPeer(addr, ip, mac)] a frame for that MAC is handed once to
    [SendMessage], for the address [addr]. *)
Theorem SendTo_after_AddPeer (addr : UDPAddr) (ip : IP) (mac : HardwareAddr)
    (msg : P2PMessage) (ptp : PTPCloud) :
  (forall q, q ∈ NetworkPeers ptp ->
     CleanAddr q <> UDPAddr_String addr -> PeerHW q <> mac) ->
  SendTo mac msg (AddPeer addr ip mac ptp) = [SendMessage msg (Some addr)].
Proof.
  intros Hother. unfold SendTo. rewrite AddPeer_spec.
  pose proof (SendTo_loop_AddPeer_peer addr ip mac msg (NetworkPeers ptp))
    as Hloop.
  destruct (existsb _ (NetworkPeers ptp)) eqn:Hex.
  - specialize (Hloop [] Hother). rewrite app_nil_r in Hloop. exact Hloop.
  - rewrite (Hloop _ Hother).
    cbn [SendTo_loop AddPeer_newPeer PeerHW PeerAddr].
    by rewrite String.eqb_refl.
Qed.

Lemma Reachable_engine_run (evs : list EngineEvent) :
  forall ptp ptp' : PTPCloud,
  Reachable ptp -> engine_run evs ptp = Some ptp' -> Reachable ptp'.
Proof.
  induction evs as [|ev rest IH]; intros ptp ptp' Hr; simpl.
  - by intros [= <-].
  - destruct ev as [count src_addr err rcv_bytes|catched]; simpl.
    + apply IH. by apply Reachable_HandleP2PMessage.
    + destruct (MembershipCycle catched ptp) as [[ptp1 eff]|] eqn:Hc; [|done].
      apply IH. by eapply Reachable_MembershipCycle.
Qed.

(** X20: the table stays well formed along every run.  Starting from an
    empty table, after any sequence of handled datagrams and turns of the
    membership loop, taken one after the other, that does not panic: no
    endpoint is listed twice; for every peer [Unknown] is the negation of
    [Handshaked]; a peer without handshake has an empty [PeerHW]; and a
    handshaked peer has a [PeerAddr]. *)
Theorem engine_run_invariants (evs : list EngineEvent)
    (ptp ptp' : PTPCloud) :
  NetworkPeers ptp = [] -> engine_run evs ptp = Some ptp' ->
  NoDup (endpoints (NetworkPeers ptp'))
  /\ Forall flags_agree (NetworkPeers ptp')
  /\ Forall mac_known_only_after_handshake (NetworkPeers ptp')
  /\ Forall handshake_has_address (NetworkPeers ptp').
Proof.
  intros Hnil Hrun.
  assert (Hr : Reachable ptp').
  { eapply Reachable_engine_run; [|exact Hrun]. by apply Reach_start. }
  split; [by apply Reachable_NoDup|].
  split; [by apply Reachable_flags_agree|].
  split; [by apply Reachable_mac_after_handshake|].
  by apply Reachable_handshake_has_address.
Qed.

(** X21: from introduction to forwarding.  When a datagram from an address
    that [IsPeerUnknown] lets through decodes to an introduction whose text
    parses to an IP and a MAC, and no peer of another endpoint holds that
    MAC, the handler answers with the introduction of the local node and,
    from then on, a frame for that MAC is sent to that address and a further
    introduction from it is not let through. *)
Theorem HandleP2PMessage_handshake (count : nat) (src_addr : UDPAddr)
    (rcv_bytes : list byte) (ptp : PTPCloud) (msg frame : P2PMessage)
    (ip : IP) (mac : HardwareAddr) :
  P2PMessageFromBytes
    (take count rcv_bytes ++ replicate (count - length rcv_bytes) x00)
  = Some msg ->
  Header_Type msg = MT_INTRO ->
  IsPeerUnknown src_addr ptp = true ->
  ParseIntroString (string_of_list_byte (Data msg)) = ((ip, mac), []) ->
  (forall q, q ∈ NetworkPeers ptp ->
     CleanAddr q <> UDPAddr_String src_addr -> PeerHW q <> mac) ->
  let r := HandleP2PMessage count src_addr false rcv_bytes ptp in
  datagrams (snd r)
  = [(PrepareIntroductionMessage (IP_ ptp) (Mac ptp), Some src_addr)]
  /\ SendTo mac frame (fst r) = [SendMessage frame (Some src_addr)]
  /\ IsPeerUnknown src_addr (fst r) = false.
Proof.
  intros Hm Ht Hu Hparse Hother r.
  assert (Hr : r = (AddPeer src_addr ip mac ptp,
                    [Log "[DEBUG] Introduction message received: %s";
                     SendMessage
                       (PrepareIntroductionMessage (IP_ ptp) (Mac ptp))
                       (Some src_addr);
                     Log "processed message from %s, msg_data : %s\n"])).
  { subst r. unfold HandleP2PMessage. rewrite Hm. cbn zeta.
    rewrite Ht, N.eqb_refl, Hu, Hparse. simpl.
    by rewrite (AddPeer_as_with src_addr ip mac ptp). }
  rewrite Hr. cbn [fst snd]. split; [done|]. split.
  - by apply SendTo_AddPeer.
  - apply IsPeerUnknown_after_AddPeer.
Qed.

End More.

(** * The engine on concrete tables

    The collaborators are those of [demo_External]: endpoints stand for
    their own addresses, ["nowhere:1"] is the one endpoint that does not
    resolve, and ["10.0.0.2"] is the one text that parses as an IP. *)

#[local] Existing Instance demo_External.

(** C1 (the code departs from it): [PurgePeers] does not keep exactly the
    peers of the snapshot.  Its last loop ranges over the positions of
    [remove], not over the indices stored in it: with the table
    [a:1, b:1, c:1] and the snapshot [a:1, b:1] it deletes position 0, so
    [a:1], which is in the snapshot, goes and [c:1], which is not, stays; with
    two peers and an empty snapshot the second deletion is out of range and
    the call panics. *)
Theorem PurgePeers_deletes_by_position :
  PurgePeers ["a:1"; "b:1"]
    (demo_ptp [demo_peer true false "a:1" []; demo_peer true false "b:1" [];
               demo_peer true false "c:1" []])
  = Some (demo_ptp [demo_peer true false "b:1" [];
                    demo_peer true false "c:1" []])
  /\ PurgePeers []
       (demo_ptp [demo_peer true false "a:1" [];
                  demo_peer true false "b:1" []])
     = None.
Proof. split; vm_compute; reflexivity. Qed.

(** C2 (the code departs from it): an introduction whose payload does not
    parse is not discarded.  From the unknown endpoint [5.6.7.8:9] and with
    the payload [hello], [ParseIntroString] logs its error and returns [nil]
    twice; the handler goes on, [AddPeer] records the endpoint as handshaked
    with an empty IP and an empty MAC, and the introduction reply is sent. *)
Theorem HandleP2PMessage_keeps_unparsed_intro :
  HandleP2PMessage 6 "5.6.7.8:9" false
    [x01; "h"; "e"; "l"; "l"; "o"]%byte (demo_ptp [])
  = (demo_ptp [demo_peer false true "5.6.7.8:9" []],
     [Log "[DEBUG] Introduction message received: %s";
      Log "[ERROR] Failed to parse introduction stirng";
      SendMessage
        (PrepareIntroductionMessage "10.0.0.1" "06:aa:aa:aa:aa:aa")
        (Some "5.6.7.8:9");
      Log "processed message from %s, msg_data : %s\n"]).
Proof. vm_compute. reflexivity. Qed.

(** C5 (the code departs from it): a [config.yaml] that cannot be read, or
    that does not parse, does not end the process.  [CreateDevice] logs the
    error and returns it, [main] drops the returned value and goes on to the
    UDP socket with no TAP device open; a TAP device that does not open ends
    the process with status 1. *)
Theorem main_startup_survives_config_error :
  (exists eff,
     main_startup (demo_Host None true true (fun _ => false))
       (Some [x00; x01; x02; x03; x04; x05]) demo_Args
     = (Running
          (mkPTP "10.0.0.1" "06:01:02:03:04:05"
             [x06; x01; x02; x03; x04; x05] "255.255.255.0" "vptp0" "" None []),
        eff)
     /\ last eff = Some (Log "[ERROR] Failed to load config: %v"))
  /\ (exists eff,
        main_startup (demo_Host (Some "iptool /sbin/ip") false true (fun _ => false))
          (Some [x00; x01; x02; x03; x04; x05]) demo_Args
        = (Running
             (mkPTP "10.0.0.1" "06:01:02:03:04:05"
                [x06; x01; x02; x03; x04; x05] "255.255.255.0" "vptp0" "" None []),
           eff)
        /\ last eff = Some (Log "[ERROR] Failed to parse config: %v"))
  /\ fst (main_startup (demo_Host (Some "iptool: /sbin/ip") true false (fun _ => false))
            (Some [x00; x01; x02; x03; x04; x05]) demo_Args)
     = Stopped 1.
Proof.
  split; [|split].
  - eexists. split; vm_compute; reflexivity.
  - eexists. split; vm_compute; reflexivity.
  - vm_compute. reflexivity.
Qed.

(** Counterexample to C3 as stated: the MAC [06:bb:bb:bb:bb:bb] is already
    recorded on the handshaked peer [1.1.1.1:1]; [AddPeer] for the other
    endpoint [2.2.2.2:2] with the same MAC changes the table, which then
    holds two handshaked peers with that MAC. *)
Lemma AddPeer_accepts_duplicate_mac :
  let mac := [x06; xbb; xbb; xbb; xbb; xbb] in
  let ptp := demo_ptp [demo_peer false true "1.1.1.1:1" mac] in
  let ptp' := AddPeer "2.2.2.2:2" [x0a; x00; x00; x02] mac ptp in
  (exists p, p ∈ NetworkPeers ptp /\ PeerHW p = mac
             /\ CleanAddr p <> "2.2.2.2:2")
  /\ ptp' <> ptp
  /\ map (fun p => (CleanAddr p, Handshaked p, PeerHW p)) (NetworkPeers ptp')
     = [("1.1.1.1:1", true, mac); ("2.2.2.2:2", true, mac)].
Proof.
  intros mac ptp ptp'. split; [|split].
  - exists (demo_peer false true "1.1.1.1:1" mac).
    split; [by left|]. split; [reflexivity | discriminate].
  - intros Heq. apply (f_equal (fun p => length (NetworkPeers p))) in Heq.
    vm_compute in Heq. discriminate.
  - vm_compute. reflexivity.
Qed.

(** Counterexample to C4 as stated: the first turn of the membership loop
    adds the endpoint [nowhere:1], whose resolution fails during the
    introduction pass, and leaves it unknown.  The next turn, on the same
    snapshot, adds no peer and so runs no introduction pass: it calls the
    resolver for no endpoint, sends nothing and leaves the table as it
    was. *)
Lemma MembershipCycle_without_new_peer_no_retry :
  let ptp1 := demo_ptp [demo_peer true false "nowhere:1" []] in
  ResolveUDPAddr "nowhere:1" = None
  /\ (exists eff1,
        MembershipCycle ["nowhere:1"] (demo_ptp []) = Some (ptp1, eff1)
        /\ Resolve "nowhere:1" ∈ eff1)
  /\ (exists eff2,
        MembershipCycle ["nowhere:1"] ptp1 = Some (ptp1, eff2)
        /\ (Resolve "nowhere:1" ∉ eff2)
        /\ (forall msg dst, SendMessage msg dst ∉ eff2)).
Proof.
  intros ptp1. split; [reflexivity|]. split.
  - eexists. split; [vm_compute; reflexivity|]. right. by left.
  - exists []. split; [vm_compute; reflexivity|].
    split; [|intros msg dst]; by intros ?%elem_of_nil.
Qed.

Lemma flags_agree_preserved_witness :
  Forall flags_agree (NetworkPeers (demo_ptp [demo_peer true false "a:1" []]))
  /\ Forall flags_agree
       (NetworkPeers
          (AddPeer "a:1" [x0a; x00; x00; x02] [x06; xbb; xbb; xbb; xbb; xbb]
             (demo_ptp [demo_peer true false "a:1" []]))).
Proof.
  assert (Hall : Forall flags_agree
                   (NetworkPeers (demo_ptp [demo_peer true false "a:1" []]))).
  { repeat constructor. }
  split; [exact Hall|].
  apply (@flags_agree_preserved demo_External _ Hall).
Defined.

Lemma IsPeerUnknown_iff_witness :
  Reachable (AddPeer "5.6.7.8:9" [] [] (demo_ptp []))
  /\ (IsPeerUnknown "5.6.7.8:9" (AddPeer "5.6.7.8:9" [] [] (demo_ptp []))
      = false <->
      exists p, p ∈ NetworkPeers (AddPeer "5.6.7.8:9" [] [] (demo_ptp []))
                /\ CleanAddr p = "5.6.7.8:9" /\ Handshaked p = true).
Proof.
  assert (Hr : Reachable (AddPeer "5.6.7.8:9" [] [] (demo_ptp []))).
  { apply Reach_AddPeer, Reach_start. reflexivity. }
  split; [exact Hr|].
  apply (@IsPeerUnknown_iff demo_External "5.6.7.8:9" _ Hr).
Defined.

Lemma SendTo_routes_by_mac_witness :
  let mac := [x06; xbb; xbb; xbb; xbb; xbb] in
  let ptp := AddPeer "5.6.7.8:9" [x0a; x00; x00; x02] mac (demo_ptp []) in
  Reachable ptp /\ length mac = 6%nat
  /\ ((exists p, p ∈ NetworkPeers ptp /\ Handshaked p = true
                 /\ PeerHW p = mac) ->
      exists p addr,
        p ∈ NetworkPeers ptp /\ Handshaked p = true /\ PeerHW p = mac
        /\ PeerAddr p = Some addr
        /\ SendTo mac (2%N, []) ptp = [SendMessage (2%N, []) (Some addr)])
  /\ ((forall p, p ∈ NetworkPeers ptp -> Handshaked p = true ->
         PeerHW p <> mac) ->
      SendTo mac (2%N, []) ptp = []).
Proof.
  intros mac ptp.
  assert (Hr : Reachable ptp).
  { apply Reach_AddPeer, Reach_start. reflexivity. }
  split; [exact Hr|]. split; [reflexivity|].
  apply (@SendTo_routes_by_mac demo_External mac (2%N, []) ptp Hr).
  reflexivity.
Defined.

Lemma MembershipCycle_retry_needs_new_peer_witness :
  let p := demo_peer true false "nowhere:1" [] in
  let ptp := demo_ptp [p] in
  PurgePeers ["nowhere:1"; "x:2"] ptp = Some ptp
  /\ p ∈ NetworkPeers ptp /\ Unknown p = true
  /\ exists ptp' eff,
       MembershipCycle ["nowhere:1"; "x:2"] ptp = Some (ptp', eff)
       /\ (snd (SyncPeers ["nowhere:1"; "x:2"] ptp) = 0%nat ->
           eff = [] /\ NetworkPeers ptp' = NetworkPeers ptp)
       /\ ((0 < snd (SyncPeers ["nowhere:1"; "x:2"] ptp))%nat ->
           Resolve (CleanAddr p) ∈ eff
           /\ match ResolveUDPAddr (CleanAddr p) with
              | Some a =>
                  SendMessage
                    (PrepareIntroductionMessage (IP_ ptp) (Mac ptp)) (Some a)
                    ∈ eff
              | None => p ∈ NetworkPeers ptp'
              end).
Proof.
  intros p ptp.
  assert (Hpurge : PurgePeers ["nowhere:1"; "x:2"] ptp = Some ptp)
    by (vm_compute; reflexivity).
  assert (Hp : p ∈ NetworkPeers ptp) by (by left).
  split; [exact Hpurge|]. split; [exact Hp|]. split; [reflexivity|].
  apply (@MembershipCycle_retry_needs_new_peer demo_External _ ptp ptp p
           Hpurge Hp).
  reflexivity.
Defined.

(** ** The further properties on concrete tables *)

Lemma endpoints_unique_preserved_witness :
  NoDup (endpoints (NetworkPeers (demo_ptp [demo_peer true false "a:1" []])))
  /\ NoDup
       (endpoints
          (NetworkPeers
             (fst (SyncPeers ["a:1"; "b:1"; "b:1"]
                     (demo_ptp [demo_peer true false "a:1" []]))))).
Proof.
  assert (Hnd : NoDup (endpoints
                         (NetworkPeers
                            (demo_ptp [demo_peer true false "a:1" []])))).
  { apply NoDup_singleton. }
  split; [exact Hnd|].
  apply (@endpoints_unique_preserved demo_External _ Hnd).
Defined.

Lemma PurgePeers_only_removes_witness :
  let ptp := demo_ptp [demo_peer true false "a:1" [];
                       demo_peer true false "b:1" [];
                       demo_peer true false "c:1" []] in
  let ptp' := demo_ptp [demo_peer true false "b:1" [];
                        demo_peer true false "c:1" []] in
  PurgePeers ["a:1"; "b:1"] ptp = Some ptp'
  /\ NetworkPeers ptp' `sublist_of` NetworkPeers ptp.
Proof.
  intros ptp ptp'.
  assert (Hp : PurgePeers ["a:1"; "b:1"] ptp = Some ptp')
    by (vm_compute; reflexivity).
  split; [exact Hp|].
  apply (@PurgePeers_only_removes demo_External _ ptp ptp' Hp).
Defined.

Lemma HandleP2PMessage_second_intro_dropped_witness :
  let first := [x01; "h"; "e"; "l"; "l"; "o"]%byte in
  let second := [x01; "h"; "i"]%byte in
  let ptp1 := fst (HandleP2PMessage 6 "5.6.7.8:9" false first (demo_ptp [])) in
  HandleP2PMessage 3 "5.6.7.8:9" false second ptp1
  = (ptp1, [Log "[DEBUG] Introduction message received: %s"]).
Proof.
  intros first second ptp1.
  apply (@HandleP2PMessage_second_intro_dropped demo_External 6 3 "5.6.7.8:9"
           first second (demo_ptp [])
           (1%N, ["h"; "e"; "l"; "l"; "o"]%byte) (1%N, ["h"; "i"]%byte));
    reflexivity.
Defined.

Lemma ParseIntroString_round_trip_witness :
  ParseIntroString "10.0.0.2,06:bb:bb:bb:bb:bb"
  = (([x0a; x00; x00; x02], [x06; xbb; xbb; xbb; xbb; xbb]), []).
Proof.
  apply (@ParseIntroString_round_trip demo_External "10.0.0.2"
           "06:bb:bb:bb:bb:bb" [x06; xbb; xbb; xbb; xbb; xbb]).
  - vm_compute. reflexivity.
  - vm_compute. reflexivity.
  - vm_compute. discriminate.
  - vm_compute. reflexivity.
Defined.

Lemma MembershipCycle_twice_witness :
  let ptp := demo_ptp [demo_peer true false "a:1" []] in
  (forall p, p ∈ NetworkPeers ptp -> CleanAddr p ∈ ["a:1"; "nowhere:1"])
  /\ exists ptp1 eff1,
       MembershipCycle ["a:1"; "nowhere:1"] ptp = Some (ptp1, eff1)
       /\ MembershipCycle ["a:1"; "nowhere:1"] ptp1 = Some (ptp1, []).
Proof.
  intros ptp.
  assert (Hl : forall p, p ∈ NetworkPeers ptp ->
                 CleanAddr p ∈ ["a:1"; "nowhere:1"]).
  { intros p ->%list_elem_of_singleton. by left. }
  split; [exact Hl|].
  apply (@MembershipCycle_twice demo_External _ ptp Hl).
Defined.

Lemma SendTo_after_AddPeer_witness :
  let mac1 := [x06; xaa; xaa; xaa; xaa; x01] in
  let mac2 := [x06; xbb; xbb; xbb; xbb; xbb] in
  let ptp := demo_ptp [demo_peer false true "1.1.1.1:1" mac1] in
  (forall q, q ∈ NetworkPeers ptp ->
     CleanAddr q <> "2.2.2.2:2" -> PeerHW q <> mac2)
  /\ SendTo mac2 (2%N, [])
       (AddPeer "2.2.2.2:2" [x0a; x00; x00; x02] mac2 ptp)
     = [SendMessage (2%N, []) (Some "2.2.2.2:2")].
Proof.
  intros mac1 mac2 ptp.
  assert (Ho : forall q, q ∈ NetworkPeers ptp ->
                 CleanAddr q <> "2.2.2.2:2" -> PeerHW q <> mac2).
  { intros q ->%list_elem_of_singleton _. discriminate. }
  split; [exact Ho|].
  apply (@SendTo_after_AddPeer demo_External "2.2.2.2:2" _ mac2 _ ptp Ho).
Defined.

Lemma engine_run_invariants_witness :
  let evs := [LoopTurn ["a:1"; "nowhere:1"];
              Datagram 6 "a:1" false [x01; "h"; "e"; "l"; "l"; "o"]%byte;
              LoopTurn ["a:1"; "nowhere:1"; "c:3"]] in
  NetworkPeers (demo_ptp []) = []
  /\ exists ptp',
       engine_run evs (demo_ptp []) = Some ptp'
       /\ length (NetworkPeers ptp') = 3%nat
       /\ NoDup (endpoints (NetworkPeers ptp'))
       /\ Forall flags_agree (NetworkPeers ptp')
       /\ Forall mac_known_only_after_handshake (NetworkPeers ptp')
       /\ Forall handshake_has_address (NetworkPeers ptp').
Proof.
  intros evs. split; [reflexivity|].
  destruct (engine_run evs (demo_ptp [])) as [ptp'|] eqn:Hrun;
    [|vm_compute in Hrun; discriminate].
  exists ptp'. split; [reflexivity|]. split.
  - vm_compute in Hrun. injection Hrun as <-. reflexivity.
  - apply (@engine_run_invariants demo_External evs (demo_ptp []) ptp'
             eq_refl Hrun).
Defined.

Lemma HandleP2PMessage_handshake_witness :
  let payload := list_byte_of_string "10.0.0.2,06:bb:bb:bb:bb:bb" in
  let mac := [x06; xbb; xbb; xbb; xbb; xbb] in
  let ptp := demo_ptp [demo_peer true false "5.6.7.8:9" []] in
  let r := HandleP2PMessage 27 "5.6.7.8:9" false (x01 :: payload) ptp in
  datagrams (snd r)
  = [(PrepareIntroductionMessage "10.0.0.1" "06:aa:aa:aa:aa:aa",
      Some "5.6.7.8:9")]
  /\ SendTo mac (2%N, []) (fst r) = [SendMessage (2%N, []) (Some "5.6.7.8:9")]
  /\ IsPeerUnknown "5.6.7.8:9" (fst r) = false.
Proof.
  intros payload mac ptp.
  apply (@HandleP2PMessage_handshake demo_External 27 "5.6.7.8:9"
           (x01 :: payload) ptp (1%N, payload) (2%N, [])
           [x0a; x00; x00; x02] mac).
  - vm_compute. reflexivity.
  - reflexivity.
  - reflexivity.
  - vm_compute. reflexivity.
  - intros q ->%list_elem_of_singleton Hne. by destruct Hne.
Defined.

Example FindNetworkAddresses_demo :
  fst (FindNetworkAddresses demo_NetHost []) = [[xc0; x00; x02; x07]].
Proof. vm_compute. reflexivity. Qed.

Example engine_run_panics :
  engine_run [LoopTurn ["a:1"; "b:1"]; LoopTurn []] (demo_ptp []) = None.
Proof. vm_compute. reflexivity. Qed.
